(** * simread: reader of IAR Simple Code (.sim) files

    A shallow embedding of [main.c] of mmmstew/simread and the proofs of
    the properties its specification states about it.

    Platform assumptions (the ones the source itself relies on):
    - [int] and [unsigned int] are 32 bits wide ("4 byte quantity" in
      [DisplayCalculatedChecksum]), [long] is wide enough for every file
      position, conversions to a narrower integer type wrap around;
    - an [unsigned char] operand of [<<] is promoted to [int] and a shift
      into the sign bit yields the two's complement bit pattern.

    Output is modelled as a log of events: one [Pr] per group of [printf]
    calls and one [Rd] per access to the record buffer [bf] of
    [DisplayRecords].  Reading [bf] beyond the bytes [fread] stored yields
    the indeterminate previous contents of the array ([stale]); an access
    beyond the array itself is undefined behaviour ([Undefined]). *)

From Stdlib Require Import ZArith List Lia Bool Sorted.
From Stdlib.Strings Require Import Byte.
From Stdlib Require String Ascii.
Import ListNotations.
Import String.StringSyntax Ascii.AsciiSyntax.
Local Open Scope Z_scope.
Delimit Scope string_scope with string.
Delimit Scope char_scope with char.

(** ** Constants of the source *)

Definition HEADER_SIZE_BYTES : Z := 14.
Definition DATA_RECORD_TAG : Z := 1.
Definition ENTRY_RECORD_TAG : Z := 2.
Definition END_RECORD_TAG : Z := 3.
Definition MAX_FILE_SIZE_BYTES : Z := 1000000.

(** [sizeof(bf)] in [DisplayRecords]. *)
Definition BF_SIZE : Z := MAX_FILE_SIZE_BYTES - HEADER_SIZE_BYTES.

(** ** Machine integers *)

Module C.

(** Conversion to [int]. *)
Definition to_int (z : Z) : Z := (z + 2 ^ 31) mod 2 ^ 32 - 2 ^ 31.

(** Conversion to [unsigned int]. *)
Definition to_uint (z : Z) : Z := z mod 2 ^ 32.

(** [a << n] on a promoted [unsigned char]. *)
Definition shl (a n : Z) : Z := to_int (Z.shiftl a n).

(** [~a] on [unsigned int]. *)
Definition not (a : Z) : Z := to_uint (Z.lnot a).

(** Value of an [unsigned char]. *)
Definition uchar (b : byte) : Z := Z.of_N (Byte.to_N b).

End C.

(** [b0<<24 | b1<<16 | b2<<8 | b3<<0] stored in an [unsigned int]. *)
Definition be32 (b0 b1 b2 b3 : Z) : Z :=
  C.to_uint (Z.lor (Z.lor (Z.lor (C.shl b0 24) (C.shl b1 16)) (C.shl b2 8))
                   (C.shl b3 0)).

(** [b0<<8 | b1<<0] stored in an [unsigned int]. *)
Definition be16 (b0 b1 : Z) : Z :=
  C.to_uint (Z.lor (C.shl b0 8) (C.shl b1 0)).

(** ** Outcomes and the event log *)

(** What one group of [printf] calls shows. *)
Inductive line : Type :=
| LFileSizeTooLarge (size : Z)
| LFileSize (size : Z)
| LCouldNotReadHeader
| LHeader (magic_number program_flags number_of_program_bytes
           version_information : Z)
| LDataRecord (segment_type record_flags record_start_address
               number_of_program_bytes : Z)
| LProgramBytesHidden
| LProgramByte (b : Z)
| LEntryRecord (entry_record segment_type : Z)
| LEndRecord (checksum : Z)
| LCouldNotCalculateChecksum
| LCalculatedChecksum (checksum : Z).

(** [Rd i] is an access to [bf[i]] in [DisplayRecords]. *)
Inductive event : Type :=
| Rd (i : Z)
| Pr (l : line).

(** [Undefined]: an access outside the array.  [Timeout]: the model of the
    [while] loop ran out of fuel (shown below never to happen). *)
Inductive outcome (A : Type) : Type :=
| Ok (a : A)
| Undefined
| Timeout.

Arguments Ok {A} a.
Arguments Undefined {A}.
Arguments Timeout {A}.

(** A computation: its outcome and the events it produced, oldest first. *)
Definition M (A : Type) : Type := (outcome A * list event)%type.

Definition ret {A : Type} (a : A) : M A := (Ok a, []).

Definition bind {A B : Type} (m : M A) (k : A -> M B) : M B :=
  match m with
  | (Ok a, w) => let (r, w') := k a in (r, w ++ w')
  | (Undefined, w) => (Undefined, w)
  | (Timeout, w) => (Timeout, w)
  end.

Notation "x <- m ;; k" := (bind m (fun x => k))
  (at level 61, m at next level, right associativity).
Notation "m ;;; k" := (bind m (fun _ => k))
  (at level 61, right associativity).

Definition printf (l : line) : M unit := (Ok tt, [Pr l]).

(** [w] logged before whatever [x] does. *)
Definition after (A : Type) (w : list event) (x : M A) : M A :=
  let (r, w') := x in (r, w ++ w').

Arguments after {A} w x.

(** ** The [stdio] stream, as far as the source uses it *)

(** [fseek(fp, pos, SEEK_SET)] followed by [fread(_, 1, count, fp)]: the
    bytes stored, at most [count], fewer at the end of the file. *)
Definition fread (file : list byte) (pos count : nat) : list byte :=
  firstn count (skipn pos file).

(** [fseek(fp, 0, SEEK_END)] followed by [ftell(fp)]. *)
Definition ftell_end (file : list byte) : Z := Z.of_nat (length file).

(** ** [DisplayFileSize] *)

Definition DisplayFileSize (file : list byte) : M Z :=
  let size := C.to_int (ftell_end file) in
  if size >=? MAX_FILE_SIZE_BYTES then
    printf (LFileSizeTooLarge size) ;;; ret 1
  else
    printf (LFileSize size) ;;; ret 0.

(** ** [DisplayHeader] *)

(** [bf[i]] of the local 30-byte buffer after [fread] stored [bf]. *)
Definition hdr (bf : list byte) (i : nat) : Z := C.uchar (nth i bf "000"%byte).

Definition DisplayHeader (file : list byte) : M Z :=
  let bf := fread file 0 (Z.to_nat HEADER_SIZE_BYTES) in
  let rb := Z.of_nat (length bf) in
  if negb (rb =? HEADER_SIZE_BYTES) then
    printf LCouldNotReadHeader ;;; ret 1
  else
    let magic_number := be32 (hdr bf 0) (hdr bf 1) (hdr bf 2) (hdr bf 3) in
    let program_flags := be32 (hdr bf 4) (hdr bf 5) (hdr bf 6) (hdr bf 7) in
    let number_of_program_bytes :=
      be32 (hdr bf 8) (hdr bf 9) (hdr bf 10) (hdr bf 11) in
    let version_information := be16 (hdr bf 12) (hdr bf 13) in
    printf (LHeader magic_number program_flags number_of_program_bytes
                    version_information) ;;;
    ret 0.

(** ** [DisplayRecord] *)

(** The array [bf] of [DisplayRecords] after [fread]: the bytes stored,
    then what the array held before. *)
Record buffer : Type := mkBuffer {
  data : list byte;
  stale : Z -> byte
}.

Definition bf_byte (m : buffer) (i : Z) : byte :=
  nth (Z.to_nat i) (data m) (stale m i).

(** [record[i]] with [record] at offset [p] of [bf]: [load m (p + i)]. *)
Definition load (m : buffer) (i : Z) : M Z :=
  if (0 <=? i) && (i <? BF_SIZE) then (Ok (C.uchar (bf_byte m i)), [Rd i])
  else (Undefined, [Rd i]).

(** [for(i=12; i<(12+number_of_program_bytes); i++) printf(.., record[i])]
    with [k] iterations left. *)
Fixpoint program_bytes (m : buffer) (record : Z) (k : nat) (i : Z) : M unit :=
  match k with
  | O => ret tt
  | S k' =>
      b <- load m (record + i) ;;
      printf (LProgramByte b) ;;;
      program_bytes m record k' (C.to_uint (i + 1))
  end.

(** The result is the offset in [bf] of the next record, [None] for the
    null pointer.  The operands of [|] are read from left to right. *)
Definition DisplayRecord (hide_program_bytes : bool) (m : buffer)
    (record : Z) : M (option Z) :=
  record_tag <- load m (record + 0) ;;
  if record_tag =? DATA_RECORD_TAG then
    segment_type <- load m (record + 1) ;;
    r2 <- load m (record + 2) ;;
    r3 <- load m (record + 3) ;;
    let record_flags := be16 r2 r3 in
    r4 <- load m (record + 4) ;;
    r5 <- load m (record + 5) ;;
    r6 <- load m (record + 6) ;;
    r7 <- load m (record + 7) ;;
    let record_start_address := be32 r4 r5 r6 r7 in
    r8 <- load m (record + 8) ;;
    r9 <- load m (record + 9) ;;
    r10 <- load m (record + 10) ;;
    r11 <- load m (record + 11) ;;
    let number_of_program_bytes := be32 r8 r9 r10 r11 in
    printf (LDataRecord segment_type record_flags record_start_address
                        number_of_program_bytes) ;;;
    (if hide_program_bytes then printf LProgramBytesHidden
     else
       let bound := C.to_uint (12 + number_of_program_bytes) in
       program_bytes m record (Z.to_nat (bound - 12)) 12) ;;;
    ret (Some (record + 12 + number_of_program_bytes))
  else if record_tag =? ENTRY_RECORD_TAG then
    r1 <- load m (record + 1) ;;
    r2 <- load m (record + 2) ;;
    r3 <- load m (record + 3) ;;
    r4 <- load m (record + 4) ;;
    let entry_record := be32 r1 r2 r3 r4 in
    segment_type <- load m (record + 5) ;;
    printf (LEntryRecord entry_record segment_type) ;;;
    ret (Some (record + 6))
  else if record_tag =? END_RECORD_TAG then
    r1 <- load m (record + 1) ;;
    r2 <- load m (record + 2) ;;
    r3 <- load m (record + 3) ;;
    r4 <- load m (record + 4) ;;
    let checksum := be32 r1 r2 r3 r4 in
    printf (LEndRecord checksum) ;;;
    ret None
  else
    ret None.

(** ** [DisplayRecords] *)

(** [while(nextRecord) nextRecord = DisplayRecord(nextRecord);] *)
Fixpoint display_loop (fuel : nat) (hide_program_bytes : bool) (m : buffer)
    (nextRecord : Z) : M unit :=
  match fuel with
  | O => (Timeout, [])
  | S fuel' =>
      next <- DisplayRecord hide_program_bytes m nextRecord ;;
      match next with
      | Some q => display_loop fuel' hide_program_bytes m q
      | None => ret tt
      end
  end.

(** Every record that lets the loop go on moves the pointer forward and
    the array has [BF_SIZE] bytes: this fuel is never used up
    ([display_loop_total]). *)
Definition loop_fuel : nat := S (Z.to_nat BF_SIZE).

(** [stale]: the indeterminate contents of the local array [bf]. *)
Definition DisplayRecords (hide_program_bytes : bool) (stale : Z -> byte)
    (file : list byte) : M Z :=
  let bf := fread file (Z.to_nat HEADER_SIZE_BYTES) (Z.to_nat BF_SIZE) in
  let rb := Z.of_nat (length bf) in
  if negb (rb =? 0) then
    display_loop loop_fuel hide_program_bytes (mkBuffer bf stale) 0 ;;;
    ret 0
  else
    ret 1.

(** ** [DisplayCalculatedChecksum] *)

(** [crcPos]: position of the checksum, 4 bytes from the end of the file,
    in an [unsigned int]. *)
Definition crcPos (file : list byte) : Z :=
  C.to_uint (C.to_uint (ftell_end file) - 4).

(** [for (i=0;i<crcPos;i++)] over the bytes the stream still holds:
    [None] when [fread] returns 0, else the sum. *)
Fixpoint checksum_loop (rest : list byte) (i crcPos checksum : Z) : option Z :=
  if i <? crcPos then
    match rest with
    | [] => None
    | fileByte :: rest' =>
        checksum_loop rest' (C.to_uint (i + 1)) crcPos
                      (C.to_uint (checksum + C.uchar fileByte))
    end
  else Some checksum.

Definition DisplayCalculatedChecksum (file : list byte) : M Z :=
  match checksum_loop file 0 (crcPos file) 0 with
  | None => printf LCouldNotCalculateChecksum ;;; ret 1
  | Some checksum =>
      let checksum := C.to_uint (C.not checksum + 1) in
      printf (LCalculatedChecksum checksum) ;;; ret 0
  end.

(** ** [main], from the successful [fopen] on *)

(** [hide_program_bytes] is the global that the option [-h] sets. *)
Definition main (hide_program_bytes : bool) (stale : Z -> byte)
    (file : list byte) : M Z :=
  r <- DisplayFileSize file ;;
  if negb (r =? 0) then ret 0 else
  r <- DisplayHeader file ;;
  if negb (r =? 0) then ret 0 else
  r <- DisplayRecords hide_program_bytes stale file ;;
  if negb (r =? 0) then ret 0 else
  r <- DisplayCalculatedChecksum file ;;
  ret 0.

(** ** The file format, as the specification describes it *)

(** Big-endian value of consecutive bytes, most significant first. *)
Definition big_endian (bs : list byte) : Z :=
  fold_left (fun acc b => acc * 256 + C.uchar b) bs 0.

(** [len] bytes of [file] from offset [off]. *)
Definition slice (file : list byte) (off len : nat) : list byte :=
  firstn len (skipn off file).

(** Sum of bytes as an integer. *)
Definition byte_sum (bs : list byte) : Z :=
  fold_right (fun b acc => C.uchar b + acc) 0 bs.

(** Sum of bytes, each added into a 32-bit accumulator with wrap-around. *)
Definition sum32 (bs : list byte) : Z :=
  fold_left (fun acc b => (acc + C.uchar b) mod 2 ^ 32) bs 0.

(** The records of section 3 of the specification. *)
Inductive SimRecord : Type :=
| DataRecord (segment_type flags start_address : Z) (payload : list byte)
| EntryRecord (entry_address segment_type : Z)
| EndRecord (checksum : Z).

(** [encodes r bs]: the bytes [bs] are record [r] on disk (section 6). *)
Inductive encodes : SimRecord -> list byte -> Prop :=
| encodes_data (seg f0 f1 a0 a1 a2 a3 n0 n1 n2 n3 : byte)
    (payload : list byte) :
    big_endian [n0; n1; n2; n3] = Z.of_nat (length payload) ->
    encodes (DataRecord (C.uchar seg) (big_endian [f0; f1])
                        (big_endian [a0; a1; a2; a3]) payload)
            ("001"%byte :: seg :: f0 :: f1 :: a0 :: a1 :: a2 :: a3
               :: n0 :: n1 :: n2 :: n3 :: payload)
| encodes_entry (a0 a1 a2 a3 seg : byte) :
    encodes (EntryRecord (big_endian [a0; a1; a2; a3]) (C.uchar seg))
            ["002"%byte; a0; a1; a2; a3; seg]
| encodes_end (c0 c1 c2 c3 : byte) :
    encodes (EndRecord (big_endian [c0; c1; c2; c3]))
            ["003"%byte; c0; c1; c2; c3].

Definition is_end (r : SimRecord) : bool :=
  match r with EndRecord _ => true | _ => false end.

(** [encodes_all rs bs]: [bs] is the records [rs] one after the other. *)
Inductive encodes_all : list SimRecord -> list byte -> Prop :=
| encodes_nil : encodes_all [] []
| encodes_cons (r : SimRecord) (rs : list SimRecord) (bs rest : list byte) :
    encodes r bs -> encodes_all rs rest -> encodes_all (r :: rs) (bs ++ rest).

(** A well-formed record stream: Data and Entry records, then one End
    record, then nothing. *)
Definition well_formed_stream (rs : list SimRecord) (c : Z) (bs : list byte)
    : Prop :=
  existsb is_end rs = false /\ encodes_all (rs ++ [EndRecord c]) bs.

(** Width of a record on disk. *)
Definition record_size (r : SimRecord) : Z :=
  match r with
  | DataRecord _ _ _ payload => 12 + Z.of_nat (length payload)
  | EntryRecord _ _ => 6
  | EndRecord _ => 5
  end.

(** Accesses [bf[p]], ..., [bf[p + n - 1]] in this order. *)
Fixpoint reads_from (p : Z) (n : nat) : list event :=
  match n with
  | O => []
  | S n' => Rd p :: reads_from (p + 1) n'
  end.

(** The payload shown byte after byte, [i] being the offset of the first
    one in the record at [p]. *)
Fixpoint shown_bytes (p i : Z) (payload : list byte) : list event :=
  match payload with
  | [] => []
  | b :: rest =>
      Rd (p + i) :: Pr (LProgramByte (C.uchar b)) :: shown_bytes p (i + 1) rest
  end.

(** What displaying record [r], found at offset [p] of the buffer, logs. *)
Definition shown (hide_program_bytes : bool) (p : Z) (r : SimRecord)
    : list event :=
  match r with
  | DataRecord seg flags addr payload =>
      reads_from p 12
        ++ [Pr (LDataRecord seg flags addr (Z.of_nat (length payload)))]
        ++ (if hide_program_bytes then [Pr LProgramBytesHidden]
            else shown_bytes p 12 payload)
  | EntryRecord addr seg => reads_from p 6 ++ [Pr (LEntryRecord addr seg)]
  | EndRecord c => reads_from p 5 ++ [Pr (LEndRecord c)]
  end.

(** The records of a stream shown one after the other from offset [p]. *)
Fixpoint shown_all (hide_program_bytes : bool) (p : Z) (rs : list SimRecord)
    : list event :=
  match rs with
  | [] => []
  | r :: rs' =>
      shown hide_program_bytes p r
        ++ shown_all hide_program_bytes (p + record_size r) rs'
  end.

(** The pointer a step returns after record [r] at offset [p]. *)
Definition next_record (p : Z) (r : SimRecord) : option Z :=
  match r with
  | EndRecord _ => None
  | _ => Some (p + record_size r)
  end.

(** The offsets of [bf] a log accesses. *)
Fixpoint reads (w : list event) : list Z :=
  match w with
  | [] => []
  | Rd i :: w' => i :: reads w'
  | Pr _ :: w' => reads w'
  end.

(** The lines a log shows, the payload bytes and the notice that replaces
    them left out: the decoded fields. *)
Fixpoint fields (w : list event) : list line :=
  match w with
  | [] => []
  | Rd _ :: w' => fields w'
  | Pr (LProgramByte _) :: w' => fields w'
  | Pr LProgramBytesHidden :: w' => fields w'
  | Pr l :: w' => l :: fields w'
  end.

(** The [n] bytes that the array holds from offset [q] on. *)
Fixpoint bytes_at (m : buffer) (q : Z) (n : nat) : list byte :=
  match n with
  | O => []
  | S n' => bf_byte m q :: bytes_at m (q + 1) n'
  end.

(** One step of the record stream decoder, in words: the tag byte at the
    cursor [p] decides what is read, what is shown and where the next
    record starts.  The result is the pointer returned, [None] for the
    null pointer, and the log of the step.  The payload of a Data record
    is read and shown when the flag is cleared and [12 + byte_count] is
    below 2^32; with the flag set the notice is shown instead, and from
    2^32 on no payload byte is read. *)
Definition step_at (hide_program_bytes : bool) (m : buffer) (p : Z)
    : option Z * list event :=
  let b i := bf_byte m (p + i) in
  let tag := C.uchar (b 0) in
  if tag =? 1 then
    let segment_type := C.uchar (b 1) in
    let flags := big_endian [b 2; b 3] in
    let start_address := big_endian [b 4; b 5; b 6; b 7] in
    let byte_count := big_endian [b 8; b 9; b 10; b 11] in
    (Some (p + 12 + byte_count),
     reads_from p 12
       ++ [Pr (LDataRecord segment_type flags start_address byte_count)]
       ++ (if hide_program_bytes then [Pr LProgramBytesHidden]
           else if 12 + byte_count <? 2 ^ 32 then
             shown_bytes p 12 (bytes_at m (p + 12) (Z.to_nat byte_count))
           else []))
  else if tag =? 2 then
    let entry_address := big_endian [b 1; b 2; b 3; b 4] in
    let segment_type := C.uchar (b 5) in
    (Some (p + 6),
     reads_from p 6 ++ [Pr (LEntryRecord entry_address segment_type)])
  else if tag =? 3 then
    let checksum := big_endian [b 1; b 2; b 3; b 4] in
    (None, reads_from p 5 ++ [Pr (LEndRecord checksum)])
  else (None, [Rd p]).

(** The log of a step with what follows the line of a Data record, the
    accesses to the payload and the bytes shown, replaced by the notice
    "[Program bytes hidden]". *)
Fixpoint hide_payload (w : list event) : list event :=
  match w with
  | [] => []
  | Pr (LDataRecord segment_type flags start_address byte_count) :: _ =>
      [Pr (LDataRecord segment_type flags start_address byte_count);
       Pr LProgramBytesHidden]
  | e :: w' => e :: hide_payload w'
  end.

(** A tag that starts no record of the format. *)
Definition unknown_tag (t : byte) : Prop :=
  C.uchar t <> DATA_RECORD_TAG /\ C.uchar t <> ENTRY_RECORD_TAG
  /\ C.uchar t <> END_RECORD_TAG.

(** ** Sample files *)

(** Array contents before [fread]: all zero. *)
Definition zeros : Z -> byte := fun _ => "000"%byte.

(** The header of the example of section 8 of the specification:
    magic 1, flags 0, 4 program bytes, version 0x0100. *)
Definition sample_header : list byte :=
  ["000"; "000"; "000"; "001"; "000"; "000"; "000"; "000";
   "000"; "000"; "000"; "004"; "001"; "000"]%byte.

(** Data record of segment 0, flags 0, address 0, payload DE AD BE EF. *)
Definition sample_data : list byte :=
  ["001"; "000"; "000"; "000"; "000"; "000"; "000"; "000";
   "000"; "000"; "000"; "004"; "222"; "173"; "190"; "239"]%byte.

(** Entry record of address 8, segment 1. *)
Definition sample_entry : list byte :=
  ["002"; "000"; "000"; "000"; "008"; "001"]%byte.

(** End record of checksum 0. *)
Definition sample_end : list byte :=
  ["003"; "000"; "000"; "000"; "000"]%byte.

(** The file of the example of section 8. *)
Definition sample_file : list byte :=
  sample_header ++ sample_data ++ sample_end.

(** [sample_header] and an End record cut after its second checksum
    byte. *)
Definition truncated_end_file : list byte :=
  sample_header ++ ["003"; "000"; "000"]%byte.

(** [sample_header] and [sample_data] cut after its second payload byte. *)
Definition truncated_data_file : list byte :=
  sample_header ++ firstn 14 sample_data.

(** [sample_header] and the tag 0x07. *)
Definition unknown_tag_file : list byte :=
  sample_header ++ ["007"]%byte.

(** [sample_header], an Entry record and the tag 0x09 where the End record
    should be. *)
Definition entry_then_unknown_file : list byte :=
  sample_header ++ sample_entry ++ ["009"; "000"; "000"; "000"; "000"]%byte.

(** A Data record whose byte count is 0xFFFFFFFF. *)
Definition wrap_record : list byte :=
  ["001"; "000"; "000"; "000"; "000"; "000"; "000"; "000";
   "255"; "255"; "255"; "255"]%byte.

(** An array of 999,970 zero bytes and the twelve field bytes of a Data
    record of 16 program bytes: the record starts 16 bytes before the end
    of the array. *)
Definition late_data_buffer : buffer :=
  mkBuffer (repeat "000"%byte (Z.to_nat 999970)
              ++ ["001"; "000"; "000"; "000"; "000"; "000"; "000"; "000";
                  "000"; "000"; "000"; "016"]%byte)
           zeros.

(** A well-formed file of 1,000,031 bytes: a Data record of 1,000,000
    (0x000F4240) zero bytes and the End record. *)
Definition oversized_file : list byte :=
  sample_header
    ++ ["001"; "000"; "000"; "000"; "000"; "000"; "000"; "000";
        "000"; "015"; "066"; "064"]%byte
    ++ repeat "000"%byte (Z.to_nat 1000000) ++ sample_end.

(** 1,000,000 zero bytes. *)
Definition file_1M : list byte := repeat "000"%byte (Z.to_nat 1000000).

(** 2^31 zero bytes. *)
Definition file_2G : list byte := repeat "000"%byte (Z.to_nat 2147483648).

(** A byte 1 and 2^32 + 3 zero bytes. *)
Definition file_4G : list byte :=
  "001"%byte :: repeat "000"%byte (Z.to_nat 4294967299).

(** ** [main] with its arguments *)

(** What [main] itself shows. *)
Inductive message : Type :=
| MUsage
| MCouldNotOpenFile.

(** The console: the messages of [main] and the events of the stages. *)
Inductive console : Type :=
| Msg (x : message)
| Ev (e : event).

(** [s[i]] of a C string: its characters, then the terminating NUL. *)
Definition char_at (s : String.string) (i : nat) : Ascii.ascii :=
  match String.get i s with
  | Some c => c
  | None => Ascii.zero
  end.

(** The label [paramError]: the usage text, return 1. *)
Definition paramError : outcome Z * list console := (Ok 1, [Msg MUsage]).

(** The test of [argv[2]]: [Some true] when [hide_program_bytes] is set,
    [None] for [goto paramError]. *)
Definition option_h (arg : String.string) : option bool :=
  if Ascii.eqb (char_at arg 0) "-"%char then
    if Ascii.eqb (char_at arg 1) "h"%char then Some true else None
  else None.

(** [main(argc, argv)]: [fopen name] is the contents of the file [name],
    [None] when it cannot be opened. *)
Definition main_args (fopen : String.string -> option (list byte))
    (stale : Z -> byte) (argv : list String.string)
    : outcome Z * list console :=
  let argc := Z.of_nat (length argv) in
  if negb (argc =? 2) && negb (argc =? 3) then paramError
  else
    match (if argc =? 3 then option_h (nth 2 argv ""%string)
           else Some false) with
    | None => paramError
    | Some hide_program_bytes =>
        match fopen (nth 1 argv ""%string) with
        | None => (Ok 1, [Msg MCouldNotOpenFile])
        | Some file =>
            let (r, w) := main hide_program_bytes stale file in
            (r, map Ev w)
        end
    end.

(** ** Order of the accesses *)

(** [x] accesses [n] consecutive bytes from offset [p] on, one after the
    other, and a pointer that it returns is behind all of them. *)
Definition consecutive (p : Z) (x : M (option Z)) : Prop :=
  exists n : nat,
    reads (snd x) = reads (reads_from p n)
    /\ forall q : Z, fst x = Ok (Some q) -> p + Z.of_nat n <= q.

(** ** Facts on machine integers *)

Lemma uchar_range (b : byte) : 0 <= C.uchar b < 256.
Proof.
  unfold C.uchar. pose proof (Byte.to_N_bounded b). lia.
Qed.

Lemma to_int_mod (z : Z) : C.to_int z mod 2 ^ 32 = z mod 2 ^ 32.
Proof.
  unfold C.to_int.
  rewrite Zminus_mod_idemp_l.
  f_equal. lia.
Qed.

Lemma to_uint_lor (a b : Z) :
  C.to_uint (Z.lor a b) = Z.lor (C.to_uint a) (C.to_uint b).
Proof.
  unfold C.to_uint.
  rewrite <- !Z.land_ones by lia.
  apply Z.land_lor_distr_l.
Qed.

Lemma to_uint_shl (a n : Z) : C.to_uint (C.shl a n) = Z.shiftl a n mod 2 ^ 32.
Proof.
  unfold C.to_uint, C.shl. apply to_int_mod.
Qed.

Lemma lor_disjoint (hi lo k : Z) :
  0 <= k -> 0 <= lo < 2 ^ k -> Z.lor (hi * 2 ^ k) lo = hi * 2 ^ k + lo.
Proof.
  intros Hk Hlo.
  assert (Hland : Z.land (hi * 2 ^ k) lo = 0).
  { apply Z.bits_inj'. intros n Hn.
    rewrite Z.land_spec, Z.bits_0.
    destruct (Z_lt_le_dec n k) as [Hlt | Hle].
    - rewrite Z.mul_pow2_bits_low by lia. reflexivity.
    - destruct (Z.eq_dec lo 0) as [-> | Hnz].
      + rewrite Z.bits_0. apply andb_false_r.
      + rewrite (Z.bits_above_log2 lo n); [apply andb_false_r | lia |].
        apply Z.log2_lt_pow2; try lia.
        apply Z.lt_le_trans with (2 ^ k); [lia |].
        apply Z.pow_le_mono_r; lia. }
  rewrite <- Z.lxor_lor by exact Hland.
  symmetry. apply Z.add_nocarry_lxor. exact Hland.
Qed.

Lemma be32_value (b0 b1 b2 b3 : Z) :
  0 <= b0 < 256 -> 0 <= b1 < 256 -> 0 <= b2 < 256 -> 0 <= b3 < 256 ->
  be32 b0 b1 b2 b3 = b0 * 2 ^ 24 + b1 * 2 ^ 16 + b2 * 2 ^ 8 + b3.
Proof.
  intros H0 H1 H2 H3. unfold be32.
  rewrite !to_uint_lor, !to_uint_shl, !Z.shiftl_mul_pow2 by lia.
  rewrite !Z.mod_small by lia.
  change (2 ^ 0) with 1. rewrite Z.mul_1_r.
  rewrite (lor_disjoint b0 (b1 * 2 ^ 16) 24) by lia.
  replace (b0 * 2 ^ 24 + b1 * 2 ^ 16) with ((b0 * 2 ^ 8 + b1) * 2 ^ 16) by lia.
  rewrite (lor_disjoint (b0 * 2 ^ 8 + b1) (b2 * 2 ^ 8) 16) by lia.
  replace ((b0 * 2 ^ 8 + b1) * 2 ^ 16 + b2 * 2 ^ 8)
    with ((b0 * 2 ^ 16 + b1 * 2 ^ 8 + b2) * 2 ^ 8) by lia.
  rewrite (lor_disjoint _ b3 8) by lia.
  lia.
Qed.

Lemma be16_value (b0 b1 : Z) :
  0 <= b0 < 256 -> 0 <= b1 < 256 -> be16 b0 b1 = b0 * 2 ^ 8 + b1.
Proof.
  intros H0 H1. unfold be16.
  rewrite !to_uint_lor, !to_uint_shl, !Z.shiftl_mul_pow2 by lia.
  rewrite !Z.mod_small by lia.
  change (2 ^ 0) with 1. rewrite Z.mul_1_r.
  apply lor_disjoint; lia.
Qed.

(** ** The event log *)

Lemma bind_ok (A B : Type) (a : A) (w : list event) (k : A -> M B) :
  bind (Ok a, w) k = after w (k a).
Proof. reflexivity. Qed.

Lemma after_pair (A : Type) (w w' : list event) (r : outcome A) :
  after w (r, w') = (r, w ++ w').
Proof. reflexivity. Qed.

Lemma after_after (A : Type) (w1 w2 : list event) (x : M A) :
  after w1 (after w2 x) = after (w1 ++ w2) x.
Proof.
  destruct x as [r w]. unfold after. now rewrite app_assoc.
Qed.

Lemma bind_after (A B : Type) (w : list event) (x : M A) (k : A -> M B) :
  bind (after w x) k = after w (bind x k).
Proof.
  destruct x as [[a | |] w']; cbn [after bind]; try reflexivity.
  destruct (k a) as [r w'']. cbn [after]. now rewrite app_assoc.
Qed.

Lemma reads_app (w1 w2 : list event) : reads (w1 ++ w2) = reads w1 ++ reads w2.
Proof.
  induction w1 as [| [i | l] w1 IH]; cbn [reads app]; now rewrite ?IH.
Qed.

Lemma fields_app (w1 w2 : list event) :
  fields (w1 ++ w2) = fields w1 ++ fields w2.
Proof.
  induction w1 as [| [i | l] w1 IH]; cbn [fields app];
    [reflexivity | exact IH |].
  destruct l; cbn [app]; now rewrite ?IH.
Qed.

(** ** Accesses to the record buffer *)

Lemma big_endian_4 (b0 b1 b2 b3 : byte) :
  be32 (C.uchar b0) (C.uchar b1) (C.uchar b2) (C.uchar b3)
  = big_endian [b0; b1; b2; b3].
Proof.
  rewrite be32_value by apply uchar_range.
  unfold big_endian. cbn [fold_left]. lia.
Qed.

Lemma big_endian_2 (b0 b1 : byte) :
  be16 (C.uchar b0) (C.uchar b1) = big_endian [b0; b1].
Proof.
  rewrite be16_value by apply uchar_range.
  unfold big_endian. cbn [fold_left]. lia.
Qed.

Lemma big_endian_4_range (b0 b1 b2 b3 : byte) :
  0 <= big_endian [b0; b1; b2; b3] < 2 ^ 32.
Proof.
  unfold big_endian. cbn [fold_left].
  pose proof (uchar_range b0). pose proof (uchar_range b1).
  pose proof (uchar_range b2). pose proof (uchar_range b3). lia.
Qed.

(** ** Records on disk *)

Lemma encodes_length (r : SimRecord) (bs : list byte) :
  encodes r bs -> Z.of_nat (length bs) = record_size r.
Proof.
  intros [seg f0 f1 a0 a1 a2 a3 n0 n1 n2 n3 payload Hcount
         | a0 a1 a2 a3 seg | c0 c1 c2 c3]; cbn [length record_size]; lia.
Qed.

Lemma encodes_all_length (rs : list SimRecord) (bs : list byte) :
  encodes_all rs bs -> (length rs <= length bs)%nat.
Proof.
  induction 1 as [| r rs bs rest Henc _ IH]; [apply Nat.le_refl |].
  apply encodes_length in Henc. rewrite length_app. cbn [length].
  destruct r; cbn [record_size] in Henc; lia.
Qed.

Lemma encodes_all_app_inv (rs1 rs2 : list SimRecord) :
  forall bs : list byte,
  encodes_all (rs1 ++ rs2) bs ->
  exists b1 b2 : list byte,
    bs = b1 ++ b2 /\ encodes_all rs1 b1 /\ encodes_all rs2 b2.
Proof.
  induction rs1 as [| r rs1 IH]; intros bs H.
  - exists [], bs. repeat split; [constructor | exact H].
  - cbn [app] in H. inversion H as [| r' rs' b rest Henc Hrest]; subst.
    destruct (IH rest Hrest) as (b1 & b2 & -> & H1 & H2).
    exists (b ++ b1), b2. rewrite app_assoc.
    repeat split; [constructor; assumption | assumption].
Qed.

Lemma shown_all_app (hide : bool) (rs1 rs2 : list SimRecord) :
  forall (b1 : list byte) (p : Z),
  encodes_all rs1 b1 ->
  shown_all hide p (rs1 ++ rs2)
  = shown_all hide p rs1 ++ shown_all hide (p + Z.of_nat (length b1)) rs2.
Proof.
  induction rs1 as [| r rs1 IH]; intros b1 p H.
  - inversion H; subst. cbn [app shown_all length]. now rewrite Z.add_0_r.
  - inversion H as [| r' rs' b rest Henc Hrest]; subst.
    cbn [app shown_all]. rewrite (IH rest _ Hrest), <- app_assoc.
    rewrite length_app, Nat2Z.inj_add, (encodes_length r b Henc).
    now rewrite Z.add_assoc.
Qed.

(** ** The decoder on the bytes stored in its buffer *)

Section Buffer.

(** The array after [fread]: it never stores more than the array holds. *)
Variable m : buffer.
Hypothesis Hsize : Z.of_nat (length (data m)) <= BF_SIZE.

(** A byte that [fread] stored is what an access within the array yields. *)
Lemma load_stored (pre post : list byte) (k : Z) (b : byte) :
  data m = pre ++ post ->
  0 <= k ->
  nth_error post (Z.to_nat k) = Some b ->
  load m (Z.of_nat (length pre) + k)
  = (Ok (C.uchar b), [Rd (Z.of_nat (length pre) + k)]).
Proof.
  intros Hdata Hk Hnth.
  assert (Hlt : (Z.to_nat k < length post)%nat).
  { apply nth_error_Some. congruence. }
  pose proof Hsize as Hlen. rewrite Hdata, length_app in Hlen.
  unfold load.
  replace ((0 <=? Z.of_nat (length pre) + k)
           && (Z.of_nat (length pre) + k <? BF_SIZE)) with true
    by (symmetry; apply andb_true_iff; split;
        [apply Z.leb_le | apply Z.ltb_lt]; lia).
  do 3 f_equal. unfold bf_byte. rewrite Hdata.
  replace (Z.to_nat (Z.of_nat (length pre) + k))
    with (length pre + Z.to_nat k)%nat by lia.
  rewrite app_nth2_plus.
  apply nth_error_nth. exact Hnth.
Qed.

Lemma bind_load (B : Type) (pre post : list byte) (k : Z) (b : byte)
    (f : Z -> M B) :
  data m = pre ++ post ->
  0 <= k ->
  nth_error post (Z.to_nat k) = Some b ->
  bind (load m (Z.of_nat (length pre) + k)) f
  = after [Rd (Z.of_nat (length pre) + k)] (f (C.uchar b)).
Proof.
  intros. erewrite load_stored by eassumption. apply bind_ok.
Qed.

Lemma load_at (i : Z) (b : byte) :
  0 <= i ->
  nth_error (data m) (Z.to_nat i) = Some b ->
  load m i = (Ok (C.uchar b), [Rd i]).
Proof.
  intros Hi Hnth. exact (load_stored [] (data m) i b eq_refl Hi Hnth).
Qed.

(** *** One step *)

Variable hide : bool.

Ltac load_next :=
  erewrite bind_load by (eassumption || lia || reflexivity).

Ltac finish_step :=
  unfold printf, ret; rewrite ?bind_ok, ?after_pair;
  cbn [shown reads_from app];
  rewrite <- ?Z.add_assoc, ?Z.add_0_r, ?app_nil_r; reflexivity.

Lemma step_entry (pre post : list byte) (a0 a1 a2 a3 seg : byte) :
  data m = pre ++ ["002"%byte; a0; a1; a2; a3; seg] ++ post ->
  DisplayRecord hide m (Z.of_nat (length pre))
  = (Ok (Some (Z.of_nat (length pre) + 6)),
     reads_from (Z.of_nat (length pre)) 6
       ++ [Pr (LEntryRecord (big_endian [a0; a1; a2; a3]) (C.uchar seg))]).
Proof.
  intros Hdata. unfold DisplayRecord.
  load_next.
  change (C.uchar "002"%byte =? DATA_RECORD_TAG) with false.
  change (C.uchar "002"%byte =? ENTRY_RECORD_TAG) with true.
  cbv iota.
  do 5 load_next.
  rewrite big_endian_4.
  finish_step.
Qed.

Lemma step_end (pre post : list byte) (c0 c1 c2 c3 : byte) :
  data m = pre ++ ["003"%byte; c0; c1; c2; c3] ++ post ->
  DisplayRecord hide m (Z.of_nat (length pre))
  = (Ok None,
     reads_from (Z.of_nat (length pre)) 5
       ++ [Pr (LEndRecord (big_endian [c0; c1; c2; c3]))]).
Proof.
  intros Hdata. unfold DisplayRecord.
  load_next.
  change (C.uchar "003"%byte =? DATA_RECORD_TAG) with false.
  change (C.uchar "003"%byte =? ENTRY_RECORD_TAG) with false.
  change (C.uchar "003"%byte =? END_RECORD_TAG) with true.
  cbv iota.
  do 4 load_next.
  rewrite big_endian_4.
  finish_step.
Qed.

Lemma step_unknown (pre post : list byte) (t : byte) :
  data m = pre ++ t :: post ->
  unknown_tag t ->
  DisplayRecord hide m (Z.of_nat (length pre))
  = (Ok None, [Rd (Z.of_nat (length pre))]).
Proof.
  intros Hdata (H1 & H2 & H3). unfold DisplayRecord.
  load_next.
  apply Z.eqb_neq in H1, H2, H3. rewrite H1, H2, H3.
  unfold ret. rewrite after_pair, Z.add_0_r. reflexivity.
Qed.

(** The loop over the payload, with [i] at the byte behind [pre]. *)
Lemma program_bytes_shown (p : Z) (post payload : list byte) :
  forall (pre : list byte) (i : Z),
  data m = pre ++ payload ++ post ->
  Z.of_nat (length pre) = p + i ->
  0 <= p ->
  0 <= i ->
  program_bytes m p (length payload) i = (Ok tt, shown_bytes p i payload).
Proof.
  induction payload as [| b payload IH]; intros pre i Hdata Hp Hp0 Hi.
  - reflexivity.
  - cbn [length program_bytes shown_bytes].
    replace (p + i) with (Z.of_nat (length pre) + 0) by lia.
    load_next.
    unfold printf at 1. rewrite bind_ok.
    assert (Hlen : Z.of_nat (length pre) + Z.of_nat (length (b :: payload))
                   <= BF_SIZE).
    { pose proof Hsize as Hs. rewrite Hdata, !length_app in Hs. lia. }
    cbn [length] in Hlen.
    replace (C.to_uint (i + 1)) with (i + 1).
    2:{ unfold C.to_uint. rewrite Z.mod_small; [reflexivity |].
        unfold BF_SIZE, MAX_FILE_SIZE_BYTES, HEADER_SIZE_BYTES in Hlen. lia. }
    rewrite (IH (pre ++ [b]) (i + 1)); try lia.
    + rewrite !after_pair. reflexivity.
    + rewrite Hdata, <- app_assoc. reflexivity.
    + rewrite length_app. cbn [length]. lia.
Qed.

Lemma step_data (pre post : list byte)
    (seg f0 f1 a0 a1 a2 a3 n0 n1 n2 n3 : byte) (payload : list byte) :
  data m = pre ++ ("001"%byte :: seg :: f0 :: f1 :: a0 :: a1 :: a2 :: a3
                     :: n0 :: n1 :: n2 :: n3 :: payload) ++ post ->
  big_endian [n0; n1; n2; n3] = Z.of_nat (length payload) ->
  DisplayRecord hide m (Z.of_nat (length pre))
  = (Ok (Some (Z.of_nat (length pre) + (12 + Z.of_nat (length payload)))),
     shown hide (Z.of_nat (length pre))
           (DataRecord (C.uchar seg) (big_endian [f0; f1])
                       (big_endian [a0; a1; a2; a3]) payload)).
Proof.
  intros Hdata Hcount. unfold DisplayRecord.
  load_next.
  change (C.uchar "001"%byte =? DATA_RECORD_TAG) with true.
  cbv iota.
  do 11 load_next.
  rewrite big_endian_2, !big_endian_4, Hcount.
  assert (Hlen : Z.of_nat (length pre) + 12 + Z.of_nat (length payload)
                 <= BF_SIZE).
  { pose proof Hsize as Hs. rewrite Hdata, !length_app in Hs.
    cbn [length] in Hs. lia. }
  unfold printf at 1. rewrite bind_ok.
  destruct hide.
  - finish_step.
  - replace (Z.to_nat (C.to_uint (12 + Z.of_nat (length payload)) - 12))
      with (length payload).
    2:{ unfold C.to_uint. rewrite Z.mod_small; [lia |].
        unfold BF_SIZE, MAX_FILE_SIZE_BYTES, HEADER_SIZE_BYTES in Hlen. lia. }
    rewrite (program_bytes_shown (Z.of_nat (length pre)) post payload
               (pre ++ ["001"%byte; seg; f0; f1; a0; a1; a2; a3;
                        n0; n1; n2; n3]) 12); try lia.
    + finish_step.
    + rewrite Hdata, <- !app_assoc. reflexivity.
    + rewrite length_app. cbn [length]. lia.
Qed.

(** A record of the format lying in the bytes [fread] stored is decoded
    into its fields and shown; the pointer returned is that of the record
    behind it, or null after an End record. *)
Lemma step_record (pre bs post : list byte) (r : SimRecord) :
  encodes r bs ->
  data m = pre ++ bs ++ post ->
  DisplayRecord hide m (Z.of_nat (length pre))
  = (Ok (next_record (Z.of_nat (length pre)) r),
     shown hide (Z.of_nat (length pre)) r).
Proof.
  intros Henc Hdata.
  destruct Henc as [seg f0 f1 a0 a1 a2 a3 n0 n1 n2 n3 payload Hcount
                   | a0 a1 a2 a3 seg | c0 c1 c2 c3].
  - eapply step_data; eassumption.
  - eapply step_entry; eassumption.
  - eapply step_end; eassumption.
Qed.

(** *** The loop *)

(** The loop shows the records before the cursor one after the other and
    goes on behind them. *)
Lemma loop_records (rs : list SimRecord) (bs : list byte) :
  encodes_all rs bs ->
  existsb is_end rs = false ->
  forall (pre post : list byte) (fuel : nat),
  data m = pre ++ bs ++ post ->
  display_loop (length rs + fuel) hide m (Z.of_nat (length pre))
  = after (shown_all hide (Z.of_nat (length pre)) rs)
          (display_loop fuel hide m (Z.of_nat (length (pre ++ bs)))).
Proof.
  induction 1 as [| r rs bs rest Henc Hall IH];
    intros Hnoend pre post fuel Hdata.
  - rewrite app_nil_r. cbn [length Nat.add shown_all].
    destruct (display_loop fuel hide m (Z.of_nat (length pre))). reflexivity.
  - cbn [existsb] in Hnoend. apply orb_false_iff in Hnoend.
    destruct Hnoend as [Hr Hrs].
    cbn [length Nat.add display_loop shown_all].
    rewrite <- app_assoc in Hdata.
    rewrite (step_record pre bs (rest ++ post) r Henc Hdata).
    rewrite bind_ok.
    assert (Hnext : next_record (Z.of_nat (length pre)) r
                    = Some (Z.of_nat (length (pre ++ bs)))).
    { rewrite length_app, Nat2Z.inj_add, (encodes_length r bs Henc).
      destruct r; [reflexivity | reflexivity | discriminate]. }
    rewrite Hnext.
    rewrite (IH Hrs (pre ++ bs) post fuel).
    + rewrite after_after. rewrite !app_assoc.
      rewrite length_app, Nat2Z.inj_add, (encodes_length r bs Henc).
      reflexivity.
    + rewrite <- app_assoc. exact Hdata.
Qed.

(** A well-formed stream in the buffer is shown record by record, the End
    record last, and the loop ends there. *)
Lemma loop_well_formed (rs : list SimRecord) (c : Z) (bs : list byte)
    (fuel : nat) :
  well_formed_stream rs c bs ->
  data m = bs ->
  display_loop (length rs + S fuel) hide m 0
  = (Ok tt, shown_all hide 0 (rs ++ [EndRecord c])).
Proof.
  intros [Hnoend Hall] Hdata.
  destruct (encodes_all_app_inv rs [EndRecord c] bs Hall)
    as (b1 & b2 & -> & H1 & H2).
  inversion H2 as [| r' rs' b rest Henc Hrest]; subst.
  inversion Hrest; subst. rewrite app_nil_r in *.
  pose proof (loop_records rs b1 H1 Hnoend [] b (S fuel)) as Hloop.
  cbn [length app Z.of_nat] in Hloop.
  rewrite Hloop by (rewrite Hdata; reflexivity).
  cbn [display_loop].
  rewrite (step_record b1 b [] (EndRecord c) Henc)
    by (rewrite Hdata, app_nil_r; reflexivity).
  rewrite bind_ok. cbn [next_record]. unfold ret.
  rewrite !after_pair.
  rewrite (shown_all_app hide rs [EndRecord c] b1 0 H1).
  cbn [shown_all]. rewrite !app_nil_r. reflexivity.
Qed.

End Buffer.

(** ** [DisplayRecords] on the bytes it stored *)

Lemma fread_length (file : list byte) (pos : nat) (count : Z) :
  0 <= count -> Z.of_nat (length (fread file pos (Z.to_nat count))) <= count.
Proof.
  intros Hc. unfold fread. rewrite length_firstn. lia.
Qed.

Lemma fread_all (header bs : list byte) (count : nat) :
  (length bs <= count)%nat ->
  fread (header ++ bs) (length header) count = bs.
Proof.
  intros Hle. unfold fread.
  rewrite skipn_app, skipn_all, Nat.sub_diag. cbn [app skipn].
  now apply firstn_all2.
Qed.

Lemma loop_fuel_split (n : nat) :
  Z.of_nat n <= BF_SIZE -> loop_fuel = (n + S (Z.to_nat BF_SIZE - n))%nat.
Proof.
  unfold loop_fuel. intros H. lia.
Qed.

Lemma header_length_14 (header : list byte) :
  Z.of_nat (length header) = HEADER_SIZE_BYTES ->
  Z.to_nat HEADER_SIZE_BYTES = length header.
Proof. intros <-. now rewrite Nat2Z.id. Qed.

(** A well-formed stream that [fread] stored whole is shown to its End
    record and [DisplayRecords] returns 0. *)
Lemma records_well_formed (hide : bool) (st : Z -> byte)
    (file bs : list byte) (rs : list SimRecord) (c : Z) :
  fread file (Z.to_nat HEADER_SIZE_BYTES) (Z.to_nat BF_SIZE) = bs ->
  well_formed_stream rs c bs ->
  DisplayRecords hide st file
  = (Ok 0, shown_all hide 0 (rs ++ [EndRecord c])).
Proof.
  intros Hread Hwf.
  pose proof (fread_length file (Z.to_nat HEADER_SIZE_BYTES) BF_SIZE) as Hsize.
  unfold DisplayRecords. rewrite Hread in *.
  assert (Hbound : Z.of_nat (length bs) <= BF_SIZE)
    by (apply Hsize; discriminate).
  clear Hsize.
  pose proof (encodes_all_length _ _ (proj2 Hwf)) as Hlen.
  rewrite length_app in Hlen. cbn [length] in Hlen.
  replace (Z.of_nat (length bs) =? 0) with false
    by (symmetry; apply Z.eqb_neq; lia).
  cbn [negb].
  rewrite (loop_fuel_split (length rs)) by lia.
  rewrite (loop_well_formed (mkBuffer bs st) Hbound hide rs c bs _ Hwf
             eq_refl).
  rewrite bind_ok. unfold ret. rewrite after_pair, app_nil_r. reflexivity.
Qed.

(** ** The accesses of a shown stream *)

Lemma reads_from_bounds (n : nat) :
  forall p : Z,
  Forall (fun i => p <= i < p + Z.of_nat n) (reads (reads_from p n)).
Proof.
  induction n as [| n IH]; intros p; cbn [reads_from reads]; constructor.
  - lia.
  - eapply Forall_impl; [| apply IH]. cbn beta. intros i Hi. lia.
Qed.

Lemma shown_bytes_bounds (p : Z) (payload : list byte) :
  forall i : Z,
  Forall (fun j => p + i <= j < p + i + Z.of_nat (length payload))
         (reads (shown_bytes p i payload)).
Proof.
  induction payload as [| b payload IH]; intros i;
    cbn [shown_bytes reads length]; constructor.
  - lia.
  - eapply Forall_impl; [| apply IH]. cbn beta. intros j Hj. lia.
Qed.

Lemma shown_bounds (hide : bool) (p : Z) (r : SimRecord) :
  Forall (fun i => p <= i < p + record_size r) (reads (shown hide p r)).
Proof.
  destruct r as [seg flags addr payload | addr seg | c];
    cbn [shown record_size]; rewrite !reads_app; cbn [reads];
    rewrite ?app_nil_r.
  - apply Forall_app. split.
    + eapply Forall_impl; [| apply reads_from_bounds]. cbn beta. lia.
    + destruct hide; [constructor |].
      eapply Forall_impl; [| apply shown_bytes_bounds]. cbn beta. lia.
  - eapply Forall_impl; [| apply reads_from_bounds]. cbn beta. lia.
  - eapply Forall_impl; [| apply reads_from_bounds]. cbn beta. lia.
Qed.

(** Showing records that lie in the buffer accesses these records only. *)
Lemma shown_all_bounds (hide : bool) (rs : list SimRecord) (bs : list byte) :
  encodes_all rs bs ->
  forall p : Z,
  Forall (fun i => p <= i < p + Z.of_nat (length bs))
         (reads (shown_all hide p rs)).
Proof.
  induction 1 as [| r rs bs rest Henc Hall IH]; intros p;
    cbn [shown_all reads]; [constructor |].
  rewrite reads_app, length_app, Nat2Z.inj_add, (encodes_length r bs Henc).
  apply Forall_app. split.
  - eapply Forall_impl; [| apply shown_bounds]. cbn beta. lia.
  - eapply Forall_impl; [| apply IH]. cbn beta.
    pose proof (encodes_length r bs Henc).
    destruct r; cbn [record_size] in *; lia.
Qed.

(** ** The loop of [DisplayRecords] ends *)

Lemma load_cases (m : buffer) (i : Z) :
  (0 <= i < BF_SIZE /\ load m i = (Ok (C.uchar (bf_byte m i)), [Rd i]))
  \/ load m i = (Undefined, [Rd i]).
Proof.
  unfold load.
  destruct (0 <=? i) eqn:H0; destruct (i <? BF_SIZE) eqn:H1; cbn [andb];
    auto.
  left. split; [| reflexivity]. apply Z.leb_le in H0. apply Z.ltb_lt in H1. lia.
Qed.

Lemma bind_Ok_inv (A B : Type) (x : M A) (k : A -> M B) (b : B) :
  fst (bind x k) = Ok b ->
  exists (a : A) (w : list event), x = (Ok a, w) /\ fst (k a) = Ok b.
Proof.
  destruct x as [[a | |] w]; cbn [bind fst]; try discriminate.
  intros H. exists a, w. split; [reflexivity |].
  destruct (k a). exact H.
Qed.

Lemma be32_nonneg (b0 b1 b2 b3 : Z) : 0 <= be32 b0 b1 b2 b3.
Proof. unfold be32, C.to_uint. apply Z.mod_pos_bound. reflexivity. Qed.

(** A step that returns a pointer read its tag inside the array and
    returns a pointer further on. *)
Lemma step_advances (hide : bool) (m : buffer) (p q : Z) :
  fst (DisplayRecord hide m p) = Ok (Some q) ->
  0 <= p < BF_SIZE /\ p < q.
Proof.
  unfold DisplayRecord. intros H.
  apply bind_Ok_inv in H. destruct H as (tag & w & Htag & H).
  assert (Hp : 0 <= p < BF_SIZE).
  { destruct (load_cases m (p + 0)) as [[Hr _] | Hu]; [lia | congruence]. }
  split; [exact Hp |].
  destruct (tag =? DATA_RECORD_TAG).
  - repeat (apply bind_Ok_inv in H; destruct H as (? & ? & _ & H)).
    cbn [ret fst] in H. injection H as <-.
    match goal with
    | |- context [be32 ?a ?b ?c ?d] => pose proof (be32_nonneg a b c d)
    end.
    lia.
  - destruct (tag =? ENTRY_RECORD_TAG).
    + repeat (apply bind_Ok_inv in H; destruct H as (? & ? & _ & H)).
      cbn [ret fst] in H. injection H as <-. lia.
    + destruct (tag =? END_RECORD_TAG).
      * repeat (apply bind_Ok_inv in H; destruct H as (? & ? & _ & H)).
        discriminate.
      * discriminate.
Qed.

Lemma bind_no_timeout (A B : Type) (x : M A) (k : A -> M B) :
  fst x <> Timeout -> (forall a : A, fst (k a) <> Timeout) ->
  fst (bind x k) <> Timeout.
Proof.
  intros Hx Hk. destruct x as [[a | |] w]; cbn [bind fst] in *;
    [| discriminate | congruence].
  specialize (Hk a). destruct (k a). exact Hk.
Qed.

Lemma load_no_timeout (m : buffer) (i : Z) : fst (load m i) <> Timeout.
Proof.
  destruct (load_cases m i) as [[_ ->] | ->]; discriminate.
Qed.

Lemma program_bytes_no_timeout (m : buffer) (p : Z) (k : nat) :
  forall i : Z, fst (program_bytes m p k i) <> Timeout.
Proof.
  induction k as [| k IH]; intros i; cbn [program_bytes]; [discriminate |].
  apply bind_no_timeout; [apply load_no_timeout | intros b].
  apply bind_no_timeout; [discriminate | intros _]. apply IH.
Qed.

Ltac no_timeout :=
  repeat (apply bind_no_timeout; [apply load_no_timeout | intros ?]);
  repeat (apply bind_no_timeout; [discriminate | intros ?]).

Lemma step_no_timeout (hide : bool) (m : buffer) (p : Z) :
  fst (DisplayRecord hide m p) <> Timeout.
Proof.
  unfold DisplayRecord.
  apply bind_no_timeout; [apply load_no_timeout | intros tag].
  destruct (tag =? DATA_RECORD_TAG).
  - no_timeout.
    apply bind_no_timeout; [| intros _; discriminate].
    destruct hide; [discriminate | apply program_bytes_no_timeout].
  - destruct (tag =? ENTRY_RECORD_TAG); [no_timeout; discriminate |].
    destruct (tag =? END_RECORD_TAG); [no_timeout; discriminate |].
    discriminate.
Qed.

Lemma display_loop_no_timeout (hide : bool) (m : buffer) (fuel : nat) :
  forall p : Z,
  0 <= p -> BF_SIZE < p + Z.of_nat fuel -> (1 <= fuel)%nat ->
  fst (display_loop fuel hide m p) <> Timeout.
Proof.
  induction fuel as [| fuel IH]; intros p Hp Hfuel Hpos; [lia |].
  cbn [display_loop].
  pose proof (step_no_timeout hide m p) as Hnt.
  destruct (DisplayRecord hide m p) as [[[q |] | |] w] eqn:Hstep;
    cbn [bind fst] in *; try discriminate; try congruence.
  pose proof (step_advances hide m p q) as Hadv.
  rewrite Hstep in Hadv. specialize (Hadv eq_refl).
  specialize (IH q).
  destruct (display_loop fuel hide m q) as [r w']. cbn [fst] in *.
  apply IH; lia.
Qed.

(** The fuel of the model is never used up: the loop of [DisplayRecords]
    ends, with the null pointer or with an access outside the array. *)
Lemma display_loop_total (hide : bool) (m : buffer) :
  fst (display_loop loop_fuel hide m 0) = Ok tt
  \/ fst (display_loop loop_fuel hide m 0) = Undefined.
Proof.
  pose proof (display_loop_no_timeout hide m loop_fuel 0) as H.
  destruct (fst (display_loop loop_fuel hide m 0)) as [[] | |]; auto.
  exfalso. apply H; [| | | reflexivity];
    unfold loop_fuel, BF_SIZE, MAX_FILE_SIZE_BYTES, HEADER_SIZE_BYTES; lia.
Qed.

(** [DisplayRecords] returns 0 or 1, or runs into an access outside its
    array. *)
Lemma DisplayRecords_total (hide : bool) (st : Z -> byte) (file : list byte) :
  fst (DisplayRecords hide st file) = Ok 0
  \/ fst (DisplayRecords hide st file) = Ok 1
  \/ fst (DisplayRecords hide st file) = Undefined.
Proof.
  unfold DisplayRecords.
  destruct (negb _); [| right; left; reflexivity].
  match goal with
  | |- context [display_loop loop_fuel hide ?m 0] =>
      destruct (display_loop_total hide m) as [H | H];
      destruct (display_loop loop_fuel hide m 0) as [[[] | |] w];
      cbn [fst] in H; try discriminate
  end.
  - left. reflexivity.
  - right. right. reflexivity.
Qed.

(** Without a byte behind the header [DisplayRecords] returns 1. *)
Lemma no_record_bytes (hide : bool) (st : Z -> byte) (file : list byte) :
  Z.of_nat (length file) <= HEADER_SIZE_BYTES ->
  DisplayRecords hide st file = (Ok 1, []).
Proof.
  intros H. unfold DisplayRecords, fread.
  rewrite skipn_all2 by lia. rewrite firstn_nil. reflexivity.
Qed.

(** ** The checksum *)

Lemma to_uint_small (z : Z) : 0 <= z < 2 ^ 32 -> C.to_uint z = z.
Proof. intros H. unfold C.to_uint. now apply Z.mod_small. Qed.

Lemma to_uint_range (z : Z) : 0 <= C.to_uint z < 2 ^ 32.
Proof. unfold C.to_uint. apply Z.mod_pos_bound. reflexivity. Qed.

(** The loop is over once [i] has reached [crcPos]. *)
Lemma checksum_loop_done (rest : list byte) (i n acc : Z) :
  n <= i -> checksum_loop rest i n acc = Some acc.
Proof.
  intros H. destruct rest; cbn [checksum_loop];
    now replace (i <? n) with false by (symmetry; apply Z.ltb_ge; exact H).
Qed.

(** With enough bytes left in the stream the loop adds up the next
    [crcPos - i] of them. *)
Lemma checksum_loop_sum (rest : list byte) :
  forall i n acc : Z,
  0 <= i <= n -> n < 2 ^ 32 -> n - i <= Z.of_nat (length rest) ->
  checksum_loop rest i n acc
  = Some (fold_left (fun a b => (a + C.uchar b) mod 2 ^ 32)
                    (firstn (Z.to_nat (n - i)) rest) acc).
Proof.
  induction rest as [| b rest IH]; intros i n acc Hi Hn Hlen.
  - cbn [length] in Hlen. rewrite checksum_loop_done by lia.
    now rewrite firstn_nil.
  - destruct (Z.eq_dec i n) as [-> | Hne].
    + rewrite checksum_loop_done by lia. now rewrite Z.sub_diag.
    + cbn [checksum_loop].
      replace (i <? n) with true by (symmetry; apply Z.ltb_lt; lia).
      rewrite (to_uint_small (i + 1)) by lia.
      cbn [length] in Hlen. rewrite IH by lia.
      replace (Z.to_nat (n - i)) with (S (Z.to_nat (n - (i + 1)))) by lia.
      reflexivity.
Qed.

(** With too few bytes left [fread] returns 0 before [crcPos]. *)
Lemma checksum_loop_eof (rest : list byte) :
  forall i n acc : Z,
  0 <= i -> n < 2 ^ 32 -> Z.of_nat (length rest) < n - i ->
  checksum_loop rest i n acc = None.
Proof.
  induction rest as [| b rest IH]; intros i n acc Hi Hn Hlen;
    cbn [length] in Hlen; cbn [checksum_loop];
    replace (i <? n) with true by (symmetry; apply Z.ltb_lt; lia);
    [reflexivity |].
  rewrite (to_uint_small (i + 1)) by lia. apply IH; lia.
Qed.

Lemma sum32_acc (bs : list byte) :
  forall acc : Z,
  fold_left (fun a b => (a + C.uchar b) mod 2 ^ 32) bs (acc mod 2 ^ 32)
  = (acc + byte_sum bs) mod 2 ^ 32.
Proof.
  induction bs as [| b bs IH]; intros acc; cbn [fold_left].
  - cbn [byte_sum fold_right]. now rewrite Z.add_0_r.
  - change (byte_sum (b :: bs)) with (C.uchar b + byte_sum bs).
    rewrite Zplus_mod_idemp_l, IH. f_equal. lia.
Qed.

Lemma sum32_byte_sum (bs : list byte) : sum32 bs = byte_sum bs mod 2 ^ 32.
Proof.
  unfold sum32. change 0 with (0 mod 2 ^ 32) at 1. now rewrite sum32_acc.
Qed.

Lemma sum32_range (bs : list byte) : 0 <= sum32 bs < 2 ^ 32.
Proof.
  rewrite sum32_byte_sum. apply Z.mod_pos_bound. reflexivity.
Qed.

(** [~checksum + 1] in an [unsigned int] is the negation modulo 2^32. *)
Lemma negate_uint (s : Z) :
  C.to_uint (C.not s + 1) = (Z.lnot s + 1) mod 2 ^ 32
  /\ (Z.lnot s + 1) mod 2 ^ 32 = (- s) mod 2 ^ 32.
Proof.
  unfold C.not, C.to_uint, Z.lnot. split.
  - now rewrite Zplus_mod_idemp_l.
  - f_equal. lia.
Qed.

Lemma crcPos_small (file : list byte) :
  4 <= Z.of_nat (length file) < 2 ^ 32 ->
  crcPos file = Z.of_nat (length file) - 4.
Proof.
  intros H. unfold crcPos, ftell_end.
  rewrite (to_uint_small (Z.of_nat (length file))) by lia.
  apply to_uint_small. lia.
Qed.

Lemma crcPos_within (file : list byte) :
  4 <= Z.of_nat (length file) ->
  0 <= crcPos file <= Z.of_nat (length file).
Proof.
  intros H. pose proof (to_uint_range (C.to_uint (ftell_end file) - 4)) as Hr.
  fold (crcPos file) in Hr. split; [lia |].
  destruct (Z_lt_le_dec (Z.of_nat (length file)) (2 ^ 32)) as [Hlt | Hge].
  - rewrite crcPos_small; lia.
  - lia.
Qed.

(** [crcPos] is 4 bytes from the end of the file as long as the position
    fits the [unsigned int]. *)
Lemma crcPos_exact (file : list byte) :
  4 <= Z.of_nat (length file) < 2 ^ 32 + 4 ->
  crcPos file = Z.of_nat (length file) - 4.
Proof.
  intros H. unfold crcPos, ftell_end, C.to_uint.
  rewrite Zminus_mod_idemp_l. apply Z.mod_small. lia.
Qed.

(** A file long enough has its checksum calculated over the bytes before
    [crcPos]. *)
Lemma checksum_calculated (file : list byte) :
  4 <= Z.of_nat (length file) ->
  DisplayCalculatedChecksum file
  = (Ok 0, [Pr (LCalculatedChecksum
                  ((Z.lnot (sum32 (firstn (Z.to_nat (crcPos file)) file)) + 1)
                   mod 2 ^ 32))]).
Proof.
  intros H. unfold DisplayCalculatedChecksum.
  pose proof (crcPos_within file H) as Hc.
  pose proof (to_uint_range (C.to_uint (ftell_end file) - 4)) as Hr.
  fold (crcPos file) in Hr.
  rewrite checksum_loop_sum by lia.
  rewrite Z.sub_0_r. fold (sum32 (firstn (Z.to_nat (crcPos file)) file)).
  rewrite (proj1 (negate_uint _)). reflexivity.
Qed.

(** Where the code calculates the checksum of the format: for every file
    of at least 4 and fewer than 2^32 + 4 bytes, the lengths for which
    [file_length - 4] fits the [unsigned int] of [crcPos], the checksum
    shown is [(~sum + 1) mod 2^32], the two's complement negation modulo
    2^32 of [sum], where [sum] adds every byte from offset 0 up to
    [file_length - 4] exclusive into a 32-bit accumulator with
    wrap-around. *)
Lemma calculated_checksum_is_negated_sum (file : list byte) :
  4 <= Z.of_nat (length file) < 2 ^ 32 + 4 ->
  let sum := sum32 (slice file 0 (length file - 4)) in
  DisplayCalculatedChecksum file
  = (Ok 0, [Pr (LCalculatedChecksum ((Z.lnot sum + 1) mod 2 ^ 32))])
  /\ (Z.lnot sum + 1) mod 2 ^ 32 = (- sum) mod 2 ^ 32.
Proof.
  intros H sum. split; [| apply negate_uint].
  rewrite checksum_calculated by lia.
  rewrite crcPos_exact by exact H.
  subst sum. unfold slice. cbn [skipn].
  replace (Z.to_nat (Z.of_nat (length file) - 4)) with (length file - 4)%nat
    by lia.
  reflexivity.
Qed.

(** C8: for every file shorter than 4 bytes the checksum verifier fails
    (it shows "Could not calculate checksum." and returns 1) and shows no
    calculated checksum. *)
Theorem short_file_has_no_checksum (file : list byte) :
  Z.of_nat (length file) < 4 ->
  DisplayCalculatedChecksum file = (Ok 1, [Pr LCouldNotCalculateChecksum]).
Proof.
  intros H. unfold DisplayCalculatedChecksum.
  rewrite checksum_loop_eof; [reflexivity | lia | apply to_uint_range |].
  unfold crcPos, ftell_end.
  rewrite (to_uint_small (Z.of_nat (length file))) by lia.
  unfold C.to_uint.
  replace (Z.of_nat (length file) - 4)
    with (Z.of_nat (length file) - 4 + 1 * 2 ^ 32 - 2 ^ 32) by lia.
  rewrite <- (Z.add_opp_r _ (2 ^ 32)).
  replace (- 2 ^ 32) with (-1 * 2 ^ 32) by lia.
  rewrite Z.mod_add by lia. rewrite Z.mod_small; lia.
Qed.

(** C9: for every byte sequence of length at least 4 a checksum is
    calculated, and adding it to the sum of the bytes it was computed over
    (those before [crcPos]) yields 0 modulo 2^32; below 2^32 bytes these
    are all the bytes but the last four, the embedded checksum field. *)
Theorem checksum_plus_sum_is_zero (file : list byte) :
  4 <= Z.of_nat (length file) ->
  exists c : Z,
    DisplayCalculatedChecksum file = (Ok 0, [Pr (LCalculatedChecksum c)])
    /\ (c + byte_sum (firstn (Z.to_nat (crcPos file)) file)) mod 2 ^ 32 = 0
    /\ (Z.of_nat (length file) < 2 ^ 32 ->
        firstn (Z.to_nat (crcPos file)) file
        = slice file 0 (length file - 4)).
Proof.
  intros H. eexists. split; [apply checksum_calculated; exact H |]. split.
  - rewrite (proj2 (negate_uint _)), sum32_byte_sum.
    set (B := byte_sum _).
    rewrite Zplus_mod_idemp_l.
    replace (- (B mod 2 ^ 32) + B) with (B / 2 ^ 32 * 2 ^ 32).
    + apply Z_mod_mult.
    + pose proof (Z.div_mod B (2 ^ 32)). lia.
  - intros Hlt. rewrite crcPos_small by lia. unfold slice. cbn [skipn].
    f_equal. lia.
Qed.

Lemma calculated_checksum_is_negated_sum_witness :
  4 <= Z.of_nat (length sample_file) < 2 ^ 32 + 4
  /\ DisplayCalculatedChecksum sample_file
     = (Ok 0, [Pr (LCalculatedChecksum 4294966458)]).
Proof.
  assert (H : 4 <= Z.of_nat (length sample_file) < 2 ^ 32 + 4)
    by (vm_compute; split; [discriminate | reflexivity]).
  split; [exact H |].
  pose proof (calculated_checksum_is_negated_sum sample_file H) as [Hc _].
  rewrite Hc. reflexivity.
Defined.

Lemma short_file_has_no_checksum_witness :
  Z.of_nat (length ["001"; "002"; "003"]%byte) < 4
  /\ DisplayCalculatedChecksum ["001"; "002"; "003"]%byte
     = (Ok 1, [Pr LCouldNotCalculateChecksum]).
Proof.
  assert (H : Z.of_nat (length ["001"; "002"; "003"]%byte) < 4)
    by reflexivity.
  split; [exact H |].
  exact (short_file_has_no_checksum ["001"; "002"; "003"]%byte H).
Defined.

Lemma checksum_plus_sum_is_zero_witness :
  4 <= Z.of_nat (length sample_file)
  /\ exists c : Z,
       DisplayCalculatedChecksum sample_file
       = (Ok 0, [Pr (LCalculatedChecksum c)])
       /\ (c + byte_sum (firstn (Z.to_nat (crcPos sample_file)) sample_file))
          mod 2 ^ 32 = 0
       /\ (Z.of_nat (length sample_file) < 2 ^ 32 ->
           firstn (Z.to_nat (crcPos sample_file)) sample_file
           = slice sample_file 0 (length sample_file - 4)).
Proof.
  assert (H : 4 <= Z.of_nat (length sample_file))
    by (vm_compute; discriminate).
  split; [exact H |].
  exact (checksum_plus_sum_is_zero sample_file H).
Defined.

(** ** The header *)

(** C5: for every file of at least 14 bytes the header decoder produces
    the header whose fields are the big-endian values of consecutive
    bytes: magic_number of bytes 0-3, program_flags of bytes 4-7,
    program_byte_count of bytes 8-11 and version of bytes 12-13. *)
Theorem header_fields_big_endian (file : list byte) :
  14 <= Z.of_nat (length file) ->
  DisplayHeader file
  = (Ok 0, [Pr (LHeader (big_endian (slice file 0 4))
                        (big_endian (slice file 4 4))
                        (big_endian (slice file 8 4))
                        (big_endian (slice file 12 2)))]).
Proof.
  intros H.
  do 14 (destruct file as [| ? file]; [cbn [length] in H; lia |]).
  unfold DisplayHeader, fread, slice, hdr.
  change (Z.to_nat HEADER_SIZE_BYTES) with 14%nat.
  cbn [firstn skipn length nth].
  change (Z.of_nat 14 =? HEADER_SIZE_BYTES) with true. cbn [negb].
  rewrite !big_endian_4, big_endian_2. reflexivity.
Qed.

Lemma header_fields_big_endian_witness :
  14 <= Z.of_nat (length sample_file)
  /\ DisplayHeader sample_file = (Ok 0, [Pr (LHeader 1 0 4 256)]).
Proof.
  split; [vm_compute; discriminate |].
  rewrite (header_fields_big_endian sample_file);
    [reflexivity | vm_compute; discriminate].
Defined.

(** A file shorter than the header: "Could not read header.", no field. *)
Lemma short_header (file : list byte) :
  Z.of_nat (length file) < 14 ->
  DisplayHeader file = (Ok 1, [Pr LCouldNotReadHeader]).
Proof.
  intros H. unfold DisplayHeader, fread.
  change (Z.to_nat HEADER_SIZE_BYTES) with 14%nat. cbn [skipn].
  rewrite length_firstn.
  replace (Z.of_nat (Nat.min 14 (length file)) =? HEADER_SIZE_BYTES) with false
    by (symmetry; apply Z.eqb_neq; unfold HEADER_SIZE_BYTES; lia).
  reflexivity.
Qed.

(** ** The size check *)

Lemma to_int_small (z : Z) : - 2 ^ 31 <= z < 2 ^ 31 -> C.to_int z = z.
Proof.
  intros H. unfold C.to_int. rewrite Z.mod_small; lia.
Qed.

(** Where the size check rejects: whenever the size that the [int] of
    [DisplayFileSize] holds is at or above the maximum, which covers
    every size from 1,000,000 to 2^31 - 1 bytes, the program shows the
    size-limit message and nothing else; no stage decodes. *)
Lemma large_file_rejected (hide : bool) (st : Z -> byte)
    (file : list byte) :
  MAX_FILE_SIZE_BYTES <= C.to_int (Z.of_nat (length file)) ->
  main hide st file
  = (Ok 0, [Pr (LFileSizeTooLarge (C.to_int (Z.of_nat (length file))))]).
Proof.
  intros H. unfold main, DisplayFileSize, ftell_end.
  replace (C.to_int (Z.of_nat (length file)) >=? MAX_FILE_SIZE_BYTES)
    with true by (symmetry; apply Z.geb_le; exact H).
  reflexivity.
Qed.

Lemma large_file_rejected_witness :
  MAX_FILE_SIZE_BYTES <= C.to_int (Z.of_nat (length file_1M))
  /\ main false zeros file_1M = (Ok 0, [Pr (LFileSizeTooLarge 1000000)]).
Proof.
  assert (Hlen : Z.of_nat (length file_1M) = 1000000).
  { unfold file_1M. rewrite repeat_length. apply Z2Nat.id. discriminate. }
  assert (Hrange : MAX_FILE_SIZE_BYTES
                   <= C.to_int (Z.of_nat (length file_1M))).
  { rewrite Hlen. vm_compute. discriminate. }
  split; [exact Hrange |].
  rewrite (large_file_rejected false zeros file_1M Hrange), Hlen.
  reflexivity.
Defined.

(** ** Files of zero bytes *)

Lemma firstn_repeat (A : Type) (x : A) (k : nat) :
  forall n : nat, (k <= n)%nat -> firstn k (repeat x n) = repeat x k.
Proof.
  induction k as [| k IH]; intros n H; [reflexivity |].
  destruct n as [| n]; [lia |]. cbn [repeat firstn]. f_equal. apply IH. lia.
Qed.

Lemma skipn_repeat (A : Type) (x : A) (k : nat) :
  forall n : nat, skipn k (repeat x n) = repeat x (n - k).
Proof.
  induction k as [| k IH]; intros n; [now rewrite Nat.sub_0_r |].
  destruct n as [| n]; [reflexivity |]. cbn [repeat skipn]. apply IH.
Qed.

Lemma byte_sum_zeros (n : nat) : byte_sum (repeat "000"%byte n) = 0.
Proof.
  induction n as [| n IH]; [reflexivity |].
  change (byte_sum (repeat "000"%byte (S n)))
    with (C.uchar "000"%byte + byte_sum (repeat "000"%byte n)).
  rewrite IH. reflexivity.
Qed.

Lemma header_of_zeros (n : nat) :
  (14 <= n)%nat ->
  DisplayHeader (repeat "000"%byte n) = (Ok 0, [Pr (LHeader 0 0 0 0)]).
Proof.
  intros H. unfold DisplayHeader, fread.
  change (Z.to_nat HEADER_SIZE_BYTES) with 14%nat.
  cbn [skipn]. rewrite firstn_repeat by exact H. reflexivity.
Qed.

(** A buffer that starts with a zero byte: the tag 0 is read and the loop
    is over. *)
Lemma records_of_zero_tag (hide : bool) (st : Z -> byte) (file : list byte)
    (k : nat) :
  fread file (Z.to_nat HEADER_SIZE_BYTES) (Z.to_nat BF_SIZE)
  = "000"%byte :: repeat "000"%byte k ->
  DisplayRecords hide st file = (Ok 0, [Rd 0]).
Proof.
  intros Hread.
  pose proof (fread_length file (Z.to_nat HEADER_SIZE_BYTES) BF_SIZE)
    as Hsize.
  unfold DisplayRecords. rewrite Hread in *.
  assert (Hbound : Z.of_nat (length ("000"%byte :: repeat "000"%byte k))
                   <= BF_SIZE) by (apply Hsize; discriminate).
  clear Hsize. cbn [length].
  replace (Z.of_nat (S (length (repeat "000"%byte k))) =? 0) with false
    by (symmetry; apply Z.eqb_neq; lia).
  cbn [negb]. unfold loop_fuel. cbn [display_loop].
  pose proof (step_unknown (mkBuffer ("000"%byte :: repeat "000"%byte k) st)
                Hbound hide [] (repeat "000"%byte k) "000"%byte eq_refl)
    as Hstep.
  cbn [length Z.of_nat] in Hstep. rewrite Hstep by (repeat split; discriminate).
  reflexivity.
Qed.

Lemma records_of_zeros (hide : bool) (st : Z -> byte) (n : nat) :
  (15 <= n)%nat ->
  DisplayRecords hide st (repeat "000"%byte n) = (Ok 0, [Rd 0]).
Proof.
  intros H.
  assert (Hread : exists k : nat,
             fread (repeat "000"%byte n) (Z.to_nat HEADER_SIZE_BYTES)
                   (Z.to_nat BF_SIZE)
             = "000"%byte :: repeat "000"%byte k).
  { unfold fread. rewrite skipn_repeat.
    change (Z.to_nat HEADER_SIZE_BYTES) with 14%nat.
    destruct (Nat.le_gt_cases (Z.to_nat BF_SIZE) (n - 14)) as [Hle | Hgt].
    - rewrite firstn_repeat by exact Hle.
      exists (Z.to_nat (BF_SIZE - 1)).
      replace (Z.to_nat BF_SIZE) with (S (Z.to_nat (BF_SIZE - 1)))
        by (unfold BF_SIZE, MAX_FILE_SIZE_BYTES, HEADER_SIZE_BYTES; lia).
      reflexivity.
    - rewrite firstn_all2 by (rewrite repeat_length; lia).
      exists (n - 15)%nat.
      replace (n - 14)%nat with (S (n - 15)) by lia. reflexivity. }
  destruct Hread as [k Hread].
  exact (records_of_zero_tag hide st _ k Hread).
Qed.

Lemma checksum_of_zeros (n : nat) :
  4 <= Z.of_nat n ->
  DisplayCalculatedChecksum (repeat "000"%byte n)
  = (Ok 0, [Pr (LCalculatedChecksum 0)]).
Proof.
  intros H. rewrite checksum_calculated by (rewrite repeat_length; exact H).
  pose proof (crcPos_within (repeat "000"%byte n)) as Hc.
  rewrite repeat_length in Hc. specialize (Hc H).
  rewrite firstn_repeat by lia.
  rewrite sum32_byte_sum, byte_sum_zeros. reflexivity.
Qed.

(** A file of zero bytes whose size the [int] of [DisplayFileSize] shows
    as less than the maximum is decoded to the end. *)
Lemma main_of_zeros (hide : bool) (st : Z -> byte) (n : nat) :
  (15 <= n)%nat ->
  C.to_int (Z.of_nat n) < MAX_FILE_SIZE_BYTES ->
  main hide st (repeat "000"%byte n)
  = (Ok 0, [Pr (LFileSize (C.to_int (Z.of_nat n))); Pr (LHeader 0 0 0 0);
            Rd 0; Pr (LCalculatedChecksum 0)]).
Proof.
  intros Hn Hsize. unfold main.
  unfold DisplayFileSize, ftell_end. rewrite repeat_length.
  replace (C.to_int (Z.of_nat n) >=? MAX_FILE_SIZE_BYTES) with false
    by (symmetry; rewrite Z.geb_leb; apply Z.leb_gt; exact Hsize).
  unfold printf at 1. rewrite bind_ok. unfold ret at 1. rewrite after_pair.
  rewrite bind_ok. change (negb (0 =? 0)) with false. cbv iota.
  rewrite header_of_zeros by lia. rewrite bind_ok.
  change (negb (0 =? 0)) with false. cbv iota.
  rewrite records_of_zeros by lia. rewrite bind_ok.
  change (negb (0 =? 0)) with false. cbv iota.
  rewrite checksum_of_zeros by lia. rewrite bind_ok.
  reflexivity.
Qed.

Lemma main_of_2G_zeros (n : nat) :
  Z.of_nat n = 2147483648 ->
  MAX_FILE_SIZE_BYTES <= Z.of_nat (length (repeat "000"%byte n))
  /\ main false zeros (repeat "000"%byte n)
     = (Ok 0, [Pr (LFileSize (-2147483648)); Pr (LHeader 0 0 0 0);
               Rd 0; Pr (LCalculatedChecksum 0)]).
Proof.
  intros Hn. rewrite repeat_length, Hn. split; [discriminate |].
  rewrite main_of_zeros;
    [rewrite Hn; reflexivity | lia | rewrite Hn; reflexivity].
Qed.

(** C7: the code misses what the claim says on a file of 2^31 zero bytes.
    The file is above the maximum accepted size, yet [DisplayFileSize]
    holds its size in an [int] as -2^31: the file passes the test
    [size >= MAX_FILE_SIZE_BYTES], "File size = -2147483648" is shown and
    the header, the records and the checksum are decoded. *)
Lemma file_2G_is_decoded :
  MAX_FILE_SIZE_BYTES <= Z.of_nat (length file_2G)
  /\ main false zeros file_2G
     = (Ok 0, [Pr (LFileSize (-2147483648)); Pr (LHeader 0 0 0 0);
               Rd 0; Pr (LCalculatedChecksum 0)]).
Proof.
  apply (main_of_2G_zeros (Z.to_nat 2147483648)).
  apply Z2Nat.id. discriminate.
Qed.

Lemma checksum_of_one_and_4G_zeros (n : nat) :
  Z.of_nat n = 4294967299 ->
  4 <= Z.of_nat (length ("001"%byte :: repeat "000"%byte n))
  /\ DisplayCalculatedChecksum ("001"%byte :: repeat "000"%byte n)
     = (Ok 0, [Pr (LCalculatedChecksum 0)])
  /\ (Z.lnot (sum32 (slice ("001"%byte :: repeat "000"%byte n) 0
                           (length ("001"%byte :: repeat "000"%byte n) - 4)))
      + 1) mod 2 ^ 32
     = 4294967295.
Proof.
  intros Hn.
  assert (Hlen : Z.of_nat (length ("001"%byte :: repeat "000"%byte n))
                 = 4294967300).
  { cbn [length]. rewrite repeat_length. lia. }
  split; [rewrite Hlen; discriminate |]. split.
  - unfold DisplayCalculatedChecksum, crcPos, ftell_end. rewrite Hlen.
    rewrite checksum_loop_done by (vm_compute; discriminate).
    reflexivity.
  - unfold slice. cbn [skipn length]. rewrite repeat_length.
    replace (S n - 4)%nat with (S (n - 4)) by lia.
    rewrite firstn_cons, firstn_repeat by lia.
    rewrite sum32_byte_sum.
    change (byte_sum ("001"%byte :: repeat "000"%byte (n - 4)))
      with (C.uchar "001"%byte + byte_sum (repeat "000"%byte (n - 4))).
    rewrite byte_sum_zeros. reflexivity.
Qed.

Lemma main_of_one_and_4G_zeros (n : nat) :
  Z.of_nat n = 4294967299 ->
  main false zeros ("001"%byte :: repeat "000"%byte n)
  = (Ok 0, [Pr (LFileSize 4); Pr (LHeader 16777216 0 0 0); Rd 0;
            Pr (LCalculatedChecksum 0)]).
Proof.
  intros Hn.
  destruct (checksum_of_one_and_4G_zeros n Hn) as (_ & Hsum & _).
  assert (Hlen : Z.of_nat (length ("001"%byte :: repeat "000"%byte n))
                 = 4294967300)
    by (cbn [length]; rewrite repeat_length; lia).
  assert (Hsize : DisplayFileSize ("001"%byte :: repeat "000"%byte n)
                  = (Ok 0, [Pr (LFileSize 4)])).
  { unfold DisplayFileSize, ftell_end. rewrite Hlen. reflexivity. }
  assert (Hhdr : DisplayHeader ("001"%byte :: repeat "000"%byte n)
                 = (Ok 0, [Pr (LHeader 16777216 0 0 0)])).
  { unfold DisplayHeader, fread.
    change (Z.to_nat HEADER_SIZE_BYTES) with 14%nat. cbn [skipn].
    rewrite firstn_cons, firstn_repeat by lia. reflexivity. }
  assert (Hrec : DisplayRecords false zeros
                   ("001"%byte :: repeat "000"%byte n)
                 = (Ok 0, [Rd 0])).
  { apply (records_of_zero_tag _ _ _ (Z.to_nat (BF_SIZE - 1))).
    unfold fread. change (Z.to_nat HEADER_SIZE_BYTES) with (S 13).
    rewrite skipn_cons, skipn_repeat.
    rewrite firstn_repeat
      by (unfold BF_SIZE, MAX_FILE_SIZE_BYTES, HEADER_SIZE_BYTES; lia).
    replace (Z.to_nat BF_SIZE) with (S (Z.to_nat (BF_SIZE - 1)))
      by (unfold BF_SIZE, MAX_FILE_SIZE_BYTES, HEADER_SIZE_BYTES; lia).
    reflexivity. }
  unfold main.
  rewrite Hsize, bind_ok. change (negb (0 =? 0)) with false. cbv iota.
  rewrite Hhdr, bind_ok. change (negb (0 =? 0)) with false. cbv iota.
  rewrite Hrec, bind_ok. change (negb (0 =? 0)) with false. cbv iota.
  rewrite Hsum. reflexivity.
Qed.

(** C3: the code misses what the claim says on the file of 2^32 + 4 bytes
    that is the byte 01 followed by zero bytes.  The position of the
    checksum, "4 bytes from the end of the file", is held in an
    [unsigned int]: [crcPos] is 0 where the file has 2^32 bytes before
    its last four, no byte is added and the checksum shown is 0, whereas
    the negated sum of the bytes before the last four is 0xFFFFFFFF.
    [main] reaches this stage: the size it shows for the file is 4. *)
Lemma file_4G_checksum :
  4 <= Z.of_nat (length file_4G)
  /\ DisplayCalculatedChecksum file_4G = (Ok 0, [Pr (LCalculatedChecksum 0)])
  /\ (Z.lnot (sum32 (slice file_4G 0 (length file_4G - 4))) + 1) mod 2 ^ 32
     = 4294967295
  /\ main false zeros file_4G
     = (Ok 0, [Pr (LFileSize 4); Pr (LHeader 16777216 0 0 0); Rd 0;
               Pr (LCalculatedChecksum 0)]).
Proof.
  assert (H : forall n : nat,
            Z.of_nat n = 4294967299 ->
            4 <= Z.of_nat (length ("001"%byte :: repeat "000"%byte n))
            /\ DisplayCalculatedChecksum ("001"%byte :: repeat "000"%byte n)
               = (Ok 0, [Pr (LCalculatedChecksum 0)])
            /\ (Z.lnot (sum32 (slice ("001"%byte :: repeat "000"%byte n) 0
                                     (length ("001"%byte
                                                :: repeat "000"%byte n) - 4)))
                + 1) mod 2 ^ 32
               = 4294967295
            /\ main false zeros ("001"%byte :: repeat "000"%byte n)
               = (Ok 0, [Pr (LFileSize 4); Pr (LHeader 16777216 0 0 0); Rd 0;
                         Pr (LCalculatedChecksum 0)])).
  { intros n Hn.
    destruct (checksum_of_one_and_4G_zeros n Hn) as (H1 & H2 & H3).
    split; [exact H1 |]. split; [exact H2 |]. split; [exact H3 |].
    exact (main_of_one_and_4G_zeros n Hn). }
  apply (H (Z.to_nat 4294967299)). apply Z2Nat.id. discriminate.
Qed.

(** ** Logs behind a prefix *)

Lemma fst_after (A : Type) (w : list event) (x : M A) :
  fst (after w x) = fst x.
Proof. destruct x. reflexivity. Qed.

Lemma snd_after (A : Type) (w : list event) (x : M A) :
  snd (after w x) = w ++ snd x.
Proof. destruct x. reflexivity. Qed.

(** ** Bytes that were never stored *)

(** Behind the bytes [fread] stored, an access within the array yields
    what the array held before. *)
Lemma load_stale (m : buffer) (i : Z) :
  Z.of_nat (length (data m)) <= i < BF_SIZE ->
  load m i = (Ok (C.uchar (stale m i)), [Rd i]).
Proof.
  intros H. unfold load.
  replace ((0 <=? i) && (i <? BF_SIZE)) with true
    by (symmetry; apply andb_true_iff; split;
        [apply Z.leb_le | apply Z.ltb_lt]; lia).
  unfold bf_byte. rewrite nth_overflow by lia. reflexivity.
Qed.

(** C1 fails on the code.  An End record cut after its second checksum
    byte: [fread] stores 3 bytes, the step reads [bf[3]] and [bf[4]]
    behind them, shows an End record whose checksum is made of what the
    array held before, and [DisplayRecords] returns 0.  A Data record
    cut after its second payload byte: the bytes behind the 14 stored are
    shown as payload and the byte behind these is taken for the next
    tag. *)
Theorem truncated_records_are_decoded (hide : bool) (st : Z -> byte) :
  fread truncated_end_file (Z.to_nat HEADER_SIZE_BYTES) (Z.to_nat BF_SIZE)
  = ["003"; "000"; "000"]%byte
  /\ DisplayRecords hide st truncated_end_file
     = (Ok 0, [Rd 0; Rd 1; Rd 2; Rd 3; Rd 4;
               Pr (LEndRecord (C.uchar (st 3) * 256 + C.uchar (st 4)))])
  /\ length (fread truncated_data_file (Z.to_nat HEADER_SIZE_BYTES)
                   (Z.to_nat BF_SIZE)) = 14%nat
  /\ DisplayRecords false zeros truncated_data_file
     = (Ok 0, [Rd 0; Rd 1; Rd 2; Rd 3; Rd 4; Rd 5; Rd 6; Rd 7; Rd 8; Rd 9;
               Rd 10; Rd 11; Pr (LDataRecord 0 0 0 4);
               Rd 12; Pr (LProgramByte 222); Rd 13; Pr (LProgramByte 173);
               Rd 14; Pr (LProgramByte 0); Rd 15; Pr (LProgramByte 0);
               Rd 16]).
Proof.
  assert (Hread : fread truncated_end_file (Z.to_nat HEADER_SIZE_BYTES)
                        (Z.to_nat BF_SIZE) = ["003"; "000"; "000"]%byte)
    by (vm_compute; reflexivity).
  split; [exact Hread |]. split; [| split; vm_compute; reflexivity].
  unfold DisplayRecords. rewrite Hread.
  change (negb (Z.of_nat (length ["003"; "000"; "000"]%byte) =? 0)) with true.
  cbv iota. unfold loop_fuel. cbn [display_loop].
  set (m := mkBuffer ["003"; "000"; "000"]%byte st).
  assert (Hm : Z.of_nat (length (data m)) <= BF_SIZE)
    by (vm_compute; discriminate).
  unfold DisplayRecord. change (0 + 0) with 0.
  rewrite (load_at m Hm 0 "003"%byte) by (reflexivity || discriminate).
  rewrite bind_ok.
  change (C.uchar "003"%byte =? DATA_RECORD_TAG) with false.
  change (C.uchar "003"%byte =? ENTRY_RECORD_TAG) with false.
  change (C.uchar "003"%byte =? END_RECORD_TAG) with true.
  cbv iota. change (0 + 1) with 1. change (0 + 2) with 2.
  change (0 + 3) with 3. change (0 + 4) with 4.
  rewrite (load_at m Hm 1 "000"%byte) by (reflexivity || discriminate).
  rewrite bind_ok.
  rewrite (load_at m Hm 2 "000"%byte) by (reflexivity || discriminate).
  rewrite bind_ok.
  rewrite (load_stale m 3) by (split; [vm_compute; discriminate | reflexivity]).
  rewrite bind_ok.
  rewrite (load_stale m 4) by (split; [vm_compute; discriminate | reflexivity]).
  rewrite bind_ok.
  rewrite be32_value
    by (apply uchar_range
        || (vm_compute; split; [discriminate | reflexivity])).
  change (stale m) with st.
  unfold printf, ret. rewrite !bind_ok, !after_pair. cbn [app].
  rewrite !bind_ok, !after_pair. cbn [app].
  change (C.uchar "000"%byte) with 0.
  replace (0 * 2 ^ 24 + 0 * 2 ^ 16 + C.uchar (st 3) * 2 ^ 8 + C.uchar (st 4))
    with (C.uchar (st 3) * 256 + C.uchar (st 4)) by lia.
  reflexivity.
Qed.

(** ** Unknown tags *)

(** C2, as stated, fails on the header followed by the tag 0x07: the tag
    is read, nothing is shown, and [DisplayRecords] returns 0 as it does
    after an End record; [main] goes on to the checksum. *)
Lemma unknown_tag_is_not_an_error :
  DisplayRecords false zeros unknown_tag_file = (Ok 0, [Rd 0])
  /\ main false zeros unknown_tag_file
     = (Ok 0, [Pr (LFileSize 15); Pr (LHeader 1 0 4 256); Rd 0;
               Pr (LCalculatedChecksum 4294967295)]).
Proof.
  split; vm_compute; reflexivity.
Qed.

(** C2, amended: for every input buffer whose next record, behind any
    number of Data and Entry records, begins with a tag byte other than
    0x01, 0x02 or 0x03, the decoder reads that tag, shows nothing for it
    and stops: [DisplayRecords] returns 0, the records before the tag
    having been shown, as after an End record.  There is no
    UnknownRecordTag error. *)
Theorem unknown_tag_stops_silently (hide : bool) (st : Z -> byte)
    (file bs rest : list byte) (rs : list SimRecord) (t : byte) :
  fread file (Z.to_nat HEADER_SIZE_BYTES) (Z.to_nat BF_SIZE)
  = bs ++ t :: rest ->
  encodes_all rs bs ->
  existsb is_end rs = false ->
  unknown_tag t ->
  DisplayRecords hide st file
  = (Ok 0, shown_all hide 0 rs ++ [Rd (Z.of_nat (length bs))]).
Proof.
  intros Hread Hall Hnoend Ht.
  pose proof (fread_length file (Z.to_nat HEADER_SIZE_BYTES) BF_SIZE) as Hsize.
  unfold DisplayRecords. rewrite Hread in *.
  assert (Hbound : Z.of_nat (length (bs ++ t :: rest)) <= BF_SIZE)
    by (apply Hsize; discriminate).
  clear Hsize.
  replace (Z.of_nat (length (bs ++ t :: rest)) =? 0) with false
    by (symmetry; apply Z.eqb_neq; rewrite length_app; cbn [length]; lia).
  cbn [negb].
  pose proof (encodes_all_length rs bs Hall) as Hlen.
  rewrite (loop_fuel_split (length rs))
    by (rewrite length_app in Hbound; lia).
  set (m := mkBuffer (bs ++ t :: rest) st).
  pose proof (loop_records m Hbound hide rs bs Hall Hnoend [] (t :: rest)
                (S (Z.to_nat BF_SIZE - length rs)) eq_refl) as Hloop.
  cbn [length app Z.of_nat] in Hloop. rewrite Hloop.
  cbn [display_loop].
  rewrite (step_unknown m Hbound hide bs rest t eq_refl Ht).
  rewrite bind_ok. unfold ret. rewrite !after_pair, bind_ok, after_pair.
  rewrite !app_nil_r. reflexivity.
Qed.

Lemma unknown_tag_stops_silently_witness :
  fread entry_then_unknown_file (Z.to_nat HEADER_SIZE_BYTES)
        (Z.to_nat BF_SIZE)
  = sample_entry ++ "009"%byte :: ["000"; "000"; "000"; "000"]%byte
  /\ encodes_all [EntryRecord 8 1] sample_entry
  /\ unknown_tag "009"%byte
  /\ DisplayRecords true zeros entry_then_unknown_file
     = (Ok 0, [Rd 0; Rd 1; Rd 2; Rd 3; Rd 4; Rd 5; Pr (LEntryRecord 8 1);
               Rd 6]).
Proof.
  assert (Hread : fread entry_then_unknown_file (Z.to_nat HEADER_SIZE_BYTES)
                        (Z.to_nat BF_SIZE)
                  = sample_entry
                      ++ "009"%byte :: ["000"; "000"; "000"; "000"]%byte)
    by (vm_compute; reflexivity).
  assert (Henc : encodes_all [EntryRecord 8 1] sample_entry).
  { apply (encodes_cons (EntryRecord 8 1) [] sample_entry []);
      [| constructor].
    exact (encodes_entry "000" "000" "000" "008" "001"). }
  assert (Htag : unknown_tag "009"%byte)
    by (repeat split; vm_compute; discriminate).
  split; [exact Hread |]. split; [exact Henc |]. split; [exact Htag |].
  exact (unknown_tag_stops_silently true zeros entry_then_unknown_file
           sample_entry _ [EntryRecord 8 1] "009"%byte Hread Henc eq_refl
           Htag).
Defined.

(** ** The step and its tag *)

(** C4, as stated, fails: an End record is not the sole normal
    termination, the tag 0x09 behind an Entry record ends the sequence as
    well and [DisplayRecords] returns 0; the step on an End record
    returns the null pointer and no cursor advanced by 5; with the flag
    set the step on a Data record reads no payload byte, and with the
    flag cleared it reads none either when the byte count is
    0xFFFFFFFF. *)
Lemma end_record_is_not_the_sole_termination :
  DisplayRecords false zeros entry_then_unknown_file
  = (Ok 0, [Rd 0; Rd 1; Rd 2; Rd 3; Rd 4; Rd 5; Pr (LEntryRecord 8 1); Rd 6])
  /\ DisplayRecord false (mkBuffer sample_end zeros) 0
     = (Ok None, [Rd 0; Rd 1; Rd 2; Rd 3; Rd 4; Pr (LEndRecord 0)])
  /\ DisplayRecord true (mkBuffer (sample_data ++ sample_end) zeros) 0
     = (Ok (Some 16),
        [Rd 0; Rd 1; Rd 2; Rd 3; Rd 4; Rd 5; Rd 6; Rd 7; Rd 8; Rd 9; Rd 10;
         Rd 11; Pr (LDataRecord 0 0 0 4); Pr LProgramBytesHidden])
  /\ DisplayRecord false (mkBuffer wrap_record zeros) 0
     = (Ok (Some 4294967307),
        [Rd 0; Rd 1; Rd 2; Rd 3; Rd 4; Rd 5; Rd 6; Rd 7; Rd 8; Rd 9; Rd 10;
         Rd 11; Pr (LDataRecord 0 0 0 4294967295)]).
Proof.
  repeat split; vm_compute; reflexivity.
Qed.

Lemma load_in_array (m : buffer) (i : Z) :
  0 <= i < BF_SIZE -> load m i = (Ok (C.uchar (bf_byte m i)), [Rd i]).
Proof.
  intros H. destruct (load_cases m i) as [[_ Hl] | Hl]; [exact Hl |].
  exfalso. unfold load in Hl.
  replace ((0 <=? i) && (i <? BF_SIZE)) with true in Hl
    by (symmetry; apply andb_true_iff; split;
        [apply Z.leb_le | apply Z.ltb_lt]; lia).
  discriminate.
Qed.

Lemma bytes_at_length (m : buffer) (n : nat) :
  forall q : Z, length (bytes_at m q n) = n.
Proof.
  induction n as [| n IH]; intros q; cbn [bytes_at length]; now rewrite ?IH.
Qed.

(** The loop over the payload within the array. *)
Lemma program_bytes_in_array (m : buffer) (p : Z) (k : nat) :
  forall i : Z,
  0 <= p -> 0 <= i -> p + i + Z.of_nat k <= BF_SIZE ->
  program_bytes m p k i = (Ok tt, shown_bytes p i (bytes_at m (p + i) k)).
Proof.
  induction k as [| k IH]; intros i Hp Hi Hk;
    cbn [program_bytes bytes_at shown_bytes]; [reflexivity |].
  rewrite load_in_array by lia. rewrite bind_ok.
  unfold printf at 1. rewrite bind_ok.
  assert (Hb : BF_SIZE < 2 ^ 32) by reflexivity.
  rewrite (to_uint_small (i + 1)) by lia.
  rewrite IH by lia. rewrite !after_pair, Z.add_assoc. reflexivity.
Qed.

Lemma reads_from_below (n : nat) :
  forall p B : Z,
  Forall (fun i => i < B) (reads (reads_from p n))
  <-> (n = 0%nat \/ p + Z.of_nat n <= B).
Proof.
  induction n as [| n IH]; intros p B; cbn [reads_from reads].
  - split; [auto | constructor].
  - rewrite Forall_cons_iff, IH. lia.
Qed.

Lemma shown_bytes_below (payload : list byte) :
  forall p i B : Z,
  Forall (fun j => j < B) (reads (shown_bytes p i payload))
  <-> (length payload = 0%nat \/ p + i + Z.of_nat (length payload) <= B).
Proof.
  induction payload as [| b payload IH]; intros p i B;
    cbn [shown_bytes reads length].
  - split; [auto | constructor].
  - rewrite Forall_cons_iff, IH. lia.
Qed.

(** The loop bound [12 + number_of_program_bytes] in an [unsigned int]:
    from 2^32 on it wraps below 12 and the loop body never runs. *)
Lemma payload_bound (n : Z) :
  0 <= n < 2 ^ 32 ->
  Z.to_nat (C.to_uint (12 + n) - 12)
  = if 12 + n <? 2 ^ 32 then Z.to_nat n else 0%nat.
Proof.
  intros Hn. unfold C.to_uint.
  destruct (Z.ltb_spec (12 + n) (2 ^ 32)) as [Hlt | Hge].
  - rewrite Z.mod_small by lia. f_equal. lia.
  - replace (12 + n) with (12 + n - 2 ^ 32 + 1 * 2 ^ 32) by lia.
    rewrite Z_mod_plus_full, Z.mod_small by lia. lia.
Qed.

Ltac load_array :=
  rewrite load_in_array by lia; rewrite bind_ok.

(** A step whose accesses, as [step_at] lists them, are within the array
    does what [step_at] says. *)
Lemma step_in_array (hide : bool) (m : buffer) (p : Z) :
  0 <= p ->
  Forall (fun i => i < BF_SIZE) (reads (snd (step_at hide m p))) ->
  DisplayRecord hide m p
  = (Ok (fst (step_at hide m p)), snd (step_at hide m p)).
Proof.
  intros Hp Hread. unfold DisplayRecord, step_at in *. cbv zeta in *.
  change DATA_RECORD_TAG with 1. change ENTRY_RECORD_TAG with 2.
  change END_RECORD_TAG with 3.
  set (n := big_endian [bf_byte m (p + 8); bf_byte m (p + 9);
                        bf_byte m (p + 10); bf_byte m (p + 11)]) in *.
  assert (Hn : 0 <= n < 2 ^ 32) by apply big_endian_4_range.
  assert (H0 : p < BF_SIZE).
  { destruct (C.uchar (bf_byte m (p + 0)) =? 1);
      [| destruct (C.uchar (bf_byte m (p + 0)) =? 2);
         [| destruct (C.uchar (bf_byte m (p + 0)) =? 3)]];
      cbn [snd reads_from app reads] in Hread;
      apply Forall_inv in Hread; exact Hread. }
  load_array.
  destruct (C.uchar (bf_byte m (p + 0)) =? 1);
    [| destruct (C.uchar (bf_byte m (p + 0)) =? 2);
       [| destruct (C.uchar (bf_byte m (p + 0)) =? 3)]];
    cbn [fst snd] in *.
  - rewrite !reads_app in Hread. apply Forall_app in Hread.
    destruct Hread as [H12 Htail]. apply reads_from_below in H12.
    cbn [reads] in Htail.
    do 11 load_array.
    rewrite big_endian_2, !big_endian_4. fold n.
    unfold printf at 1. rewrite bind_ok.
    destruct hide.
    + unfold printf, ret. rewrite !bind_ok, !after_pair.
      cbn [reads_from app].
      rewrite <- ?Z.add_assoc, ?Z.add_0_r. reflexivity.
    + rewrite payload_bound by exact Hn.
      destruct (12 + n <? 2 ^ 32).
      * apply shown_bytes_below in Htail.
        rewrite bytes_at_length in Htail.
        rewrite program_bytes_in_array by lia.
        unfold ret. rewrite !bind_ok, !after_pair.
        cbn [reads_from app].
        rewrite <- ?Z.add_assoc, ?Z.add_0_r, ?app_nil_r. reflexivity.
      * cbn [program_bytes]. unfold ret. rewrite !bind_ok, !after_pair.
        cbn [reads_from app].
        rewrite <- ?Z.add_assoc, ?Z.add_0_r, ?app_nil_r. reflexivity.
  - rewrite reads_app in Hread. apply Forall_app in Hread.
    destruct Hread as [H6 _]. apply reads_from_below in H6.
    do 5 load_array.
    rewrite big_endian_4.
    unfold printf, ret. rewrite !bind_ok, !after_pair.
    cbn [reads_from app].
    rewrite <- ?Z.add_assoc, ?Z.add_0_r. reflexivity.
  - rewrite reads_app in Hread. apply Forall_app in Hread.
    destruct Hread as [H5 _]. apply reads_from_below in H5.
    do 4 load_array.
    rewrite big_endian_4.
    unfold printf, ret. rewrite !bind_ok, !after_pair.
    cbn [reads_from app].
    rewrite <- ?Z.add_assoc, ?Z.add_0_r. reflexivity.
  - unfold ret. rewrite after_pair, Z.add_0_r. reflexivity.
Qed.

Lemma bind_defined (A B : Type) (x : M A) (k : A -> M B) :
  fst (bind x k) <> Undefined -> fst x <> Undefined.
Proof.
  destruct x as [[a | |] w]; cbn [bind fst]; [discriminate | auto |].
  discriminate.
Qed.

(** A payload loop that ends has stayed within the array. *)
Lemma program_bytes_within (m : buffer) (p : Z) (k : nat) :
  forall i : Z,
  0 <= p -> 0 <= i ->
  fst (program_bytes m p k i) <> Undefined ->
  k = 0%nat \/ p + i + Z.of_nat k <= BF_SIZE.
Proof.
  induction k as [| k IH]; intros i Hp Hi H; [auto |]. right.
  cbn [program_bytes] in H.
  destruct (load_cases m (p + i)) as [[Hr Hl] | Hl]; rewrite Hl in H.
  - rewrite bind_ok in H. unfold printf in H.
    rewrite bind_ok, !fst_after in H.
    assert (Hb : BF_SIZE < 2 ^ 32) by reflexivity.
    rewrite (to_uint_small (i + 1)) in H by lia.
    destruct (IH (i + 1)); [lia | lia | exact H | lia | lia].
  - exfalso. apply H. reflexivity.
Qed.

Ltac load_defined H :=
  repeat match type of H with
         | fst (bind (load ?m ?i) _) <> Undefined =>
             let Hr := fresh "Hr" in
             let Hl := fresh "Hl" in
             destruct (load_cases m i) as [[Hr Hl] | Hl]; rewrite Hl in H;
             [rewrite bind_ok, fst_after in H; clear Hl
             | exfalso; apply H; reflexivity]
         end.

(** A step that is defined has made the accesses that [step_at] lists,
    all of them within the array. *)
Lemma step_defined (hide : bool) (m : buffer) (p : Z) :
  fst (DisplayRecord hide m p) <> Undefined ->
  0 <= p /\ Forall (fun i => i < BF_SIZE) (reads (snd (step_at hide m p))).
Proof.
  intros H. unfold DisplayRecord, step_at in *. cbv zeta in *.
  change DATA_RECORD_TAG with 1 in H. change ENTRY_RECORD_TAG with 2 in H.
  change END_RECORD_TAG with 3 in H.
  destruct (load_cases m (p + 0)) as [[Hr0 Hl0] | Hl0]; rewrite Hl0 in H;
    [| exfalso; apply H; reflexivity].
  rewrite bind_ok, fst_after in H. clear Hl0.
  split; [lia |].
  destruct (C.uchar (bf_byte m (p + 0)) =? 1);
    [| destruct (C.uchar (bf_byte m (p + 0)) =? 2);
       [| destruct (C.uchar (bf_byte m (p + 0)) =? 3)]];
    cbn [snd].
  - load_defined H.
    rewrite !big_endian_4 in H.
    set (n := big_endian [bf_byte m (p + 8); bf_byte m (p + 9);
                          bf_byte m (p + 10); bf_byte m (p + 11)]) in *.
    assert (Hn : 0 <= n < 2 ^ 32) by apply big_endian_4_range.
    unfold printf at 1 in H. rewrite bind_ok, fst_after in H.
    rewrite !reads_app. apply Forall_app. split.
    + apply reads_from_below. lia.
    + cbn [app reads]. destruct hide; [constructor |].
      apply bind_defined in H. rewrite payload_bound in H by exact Hn.
      destruct (12 + n <? 2 ^ 32); [| constructor].
      apply program_bytes_within in H; [| lia | lia].
      apply shown_bytes_below. rewrite bytes_at_length. lia.
  - load_defined H.
    rewrite reads_app. apply Forall_app. split; [| constructor].
    apply reads_from_below. lia.
  - load_defined H.
    rewrite reads_app. apply Forall_app. split; [| constructor].
    apply reads_from_below. lia.
  - cbn [reads]. rewrite Z.add_0_r in Hr0. repeat constructor. lia.
Qed.

(** C4, amended: at every step of the record stream decoder whose
    accesses stay within the array, the tag byte at the cursor decides.
    Tag 0x01: segment_type (1 byte), flags (2 bytes BE), start_address
    (4 bytes BE) and byte_count (4 bytes BE) are read and shown and the
    pointer returned is the cursor advanced by 12 + byte_count; the
    byte_count payload bytes are read and shown when the flag
    [hide_program_bytes] is cleared and 12 + byte_count is below 2^32,
    and none of them is read otherwise.  Tag 0x02: entry_address (4 bytes
    BE) and segment_type (1 byte) are read and shown; the cursor advances
    by 6.  Tag 0x03: the checksum (4 bytes BE) is read and shown and the
    null pointer is returned, which ends the sequence.  Any other tag:
    nothing but the tag is read, the null pointer is returned and the
    sequence ends as well.  The step is defined exactly when the cursor
    is not negative and the accesses that this description lists are
    within the array. *)
Theorem step_follows_tag (hide : bool) (m : buffer) (p : Z) :
  (fst (DisplayRecord hide m p) <> Undefined
   <-> 0 <= p
       /\ Forall (fun i => i < BF_SIZE) (reads (snd (step_at hide m p))))
  /\ (fst (DisplayRecord hide m p) <> Undefined ->
      DisplayRecord hide m p
      = (Ok (fst (step_at hide m p)), snd (step_at hide m p))).
Proof.
  assert (Hstep : 0 <= p
                  /\ Forall (fun i => i < BF_SIZE)
                            (reads (snd (step_at hide m p))) ->
                  DisplayRecord hide m p
                  = (Ok (fst (step_at hide m p)), snd (step_at hide m p)))
    by (intros [Hp Hr]; apply step_in_array; assumption).
  split; [split |].
  - apply step_defined.
  - intros Hin. rewrite (Hstep Hin). discriminate.
  - intros H. apply Hstep, step_defined, H.
Qed.

Lemma step_follows_tag_witness :
  fst (DisplayRecord false (mkBuffer wrap_record zeros) 0) <> Undefined
  /\ DisplayRecord false (mkBuffer wrap_record zeros) 0
     = (Ok (Some 4294967307),
        [Rd 0; Rd 1; Rd 2; Rd 3; Rd 4; Rd 5; Rd 6; Rd 7; Rd 8; Rd 9; Rd 10;
         Rd 11; Pr (LDataRecord 0 0 0 4294967295)])
  /\ DisplayRecord false
       (mkBuffer (sample_entry ++ sample_data ++ sample_end) zeros) 6
     = (Ok (Some 22),
        [Rd 6; Rd 7; Rd 8; Rd 9; Rd 10; Rd 11; Rd 12; Rd 13; Rd 14; Rd 15;
         Rd 16; Rd 17; Pr (LDataRecord 0 0 0 4);
         Rd 18; Pr (LProgramByte 222); Rd 19; Pr (LProgramByte 173);
         Rd 20; Pr (LProgramByte 190); Rd 21; Pr (LProgramByte 239)]).
Proof.
  assert (H1 : fst (DisplayRecord false (mkBuffer wrap_record zeros) 0)
               <> Undefined) by (vm_compute; discriminate).
  assert (H2 : fst (DisplayRecord false
                      (mkBuffer (sample_entry ++ sample_data ++ sample_end)
                                zeros) 6)
               <> Undefined) by (vm_compute; discriminate).
  split; [exact H1 |]. split.
  - exact (proj2 (step_follows_tag false (mkBuffer wrap_record zeros) 0) H1).
  - exact (proj2 (step_follows_tag false
                    (mkBuffer (sample_entry ++ sample_data ++ sample_end)
                              zeros) 6) H2).
Defined.

(** ** The flag [hide_program_bytes] *)

Lemma fields_reads_from (n : nat) :
  forall p : Z, fields (reads_from p n) = [].
Proof.
  induction n as [| n IH]; intros p; cbn [reads_from fields]; auto.
Qed.

Lemma fields_shown_bytes (payload : list byte) :
  forall p i : Z, fields (shown_bytes p i payload) = [].
Proof.
  induction payload as [| b payload IH]; intros p i;
    cbn [shown_bytes fields]; auto.
Qed.

Lemma hide_payload_reads_from (n : nat) (w : list event) :
  forall p : Z,
  hide_payload (reads_from p n ++ w) = reads_from p n ++ hide_payload w.
Proof.
  induction n as [| n IH]; intros p; cbn [reads_from app hide_payload];
    [reflexivity |].
  now rewrite IH.
Qed.

(** What the two runs of a step share: the pointer, the fields, the
    accesses to the fields. *)
Lemma step_at_hidden (m : buffer) (p : Z) :
  fst (step_at true m p) = fst (step_at false m p)
  /\ fields (snd (step_at true m p)) = fields (snd (step_at false m p))
  /\ snd (step_at true m p) = hide_payload (snd (step_at false m p))
  /\ Forall (fun i => p <= i < p + 12) (reads (snd (step_at true m p)))
  /\ (Forall (fun i => i < BF_SIZE) (reads (snd (step_at false m p))) ->
      Forall (fun i => i < BF_SIZE) (reads (snd (step_at true m p)))).
Proof.
  unfold step_at. cbv zeta.
  destruct (C.uchar (bf_byte m (p + 0)) =? 1);
    [| destruct (C.uchar (bf_byte m (p + 0)) =? 2);
       [| destruct (C.uchar (bf_byte m (p + 0)) =? 3)]];
    cbn [fst snd].
  - split; [reflexivity |].
    rewrite !hide_payload_reads_from, !fields_app, !reads_app.
    cbn [app hide_payload fields reads].
    rewrite !fields_reads_from, app_nil_r.
    split; [| split; [reflexivity | split]].
    + destruct (_ <? _); [now rewrite fields_shown_bytes | reflexivity].
    + eapply Forall_impl; [| apply (reads_from_bounds 12)]. cbn beta. lia.
    + intros H. apply Forall_app in H. apply H.
  - split; [reflexivity |].
    rewrite hide_payload_reads_from, reads_app. cbn [hide_payload reads].
    split; [reflexivity |]. split; [reflexivity |]. split; [| auto].
    rewrite app_nil_r.
    eapply Forall_impl; [| apply (reads_from_bounds 6)]. cbn beta. lia.
  - split; [reflexivity |].
    rewrite hide_payload_reads_from, reads_app. cbn [hide_payload reads].
    split; [reflexivity |]. split; [reflexivity |]. split; [| auto].
    rewrite app_nil_r.
    eapply Forall_impl; [| apply (reads_from_bounds 5)]. cbn beta. lia.
  - cbn [hide_payload reads].
    repeat (split; [reflexivity |]). split; [| auto].
    repeat constructor; lia.
Qed.

(** C10, amended: for every record buffer on which the decode step with
    the flag [hide_program_bytes] cleared stays within the array, the
    field values that the step shows and the next-record pointer that it
    returns are the same with the flag set and cleared.  The flag is read
    by the decode step itself: set, the step reads the bytes of the
    fields only, none from offset 12 of the record on, and its log is
    that of the other run with the accesses to the payload and the bytes
    shown replaced by the notice. *)
Theorem hide_flag_does_not_change_decoding (m : buffer) (record : Z) :
  fst (DisplayRecord false m record) <> Undefined ->
  fst (DisplayRecord true m record) = fst (DisplayRecord false m record)
  /\ fields (snd (DisplayRecord true m record))
     = fields (snd (DisplayRecord false m record))
  /\ snd (DisplayRecord true m record)
     = hide_payload (snd (DisplayRecord false m record))
  /\ Forall (fun i => record <= i < record + 12)
            (reads (snd (DisplayRecord true m record))).
Proof.
  intros H.
  destruct (step_defined false m record H) as [Hp Hshown].
  destruct (step_at_hidden m record) as (Hnext & Hfields & Hlog & H12 & Hin).
  rewrite (step_in_array false m record Hp Hshown).
  rewrite (step_in_array true m record Hp (Hin Hshown)).
  cbn [fst snd]. rewrite Hnext.
  split; [reflexivity |]. split; [exact Hfields |].
  split; [exact Hlog | exact H12].
Qed.

Lemma hide_flag_does_not_change_decoding_witness :
  fst (DisplayRecord false (mkBuffer (sample_data ++ sample_end) zeros) 0)
  <> Undefined
  /\ fst (DisplayRecord true (mkBuffer (sample_data ++ sample_end) zeros) 0)
     = Ok (Some 16)
  /\ fst (DisplayRecord false (mkBuffer (sample_data ++ sample_end) zeros) 0)
     = Ok (Some 16)
  /\ fields (snd (DisplayRecord true
                    (mkBuffer (sample_data ++ sample_end) zeros) 0))
     = [LDataRecord 0 0 0 4].
Proof.
  assert (H : fst (DisplayRecord false
                     (mkBuffer (sample_data ++ sample_end) zeros) 0)
              <> Undefined) by (vm_compute; discriminate).
  pose proof (hide_flag_does_not_change_decoding
                (mkBuffer (sample_data ++ sample_end) zeros) 0 H)
    as (Hnext & Hfields & _).
  split; [exact H |]. split; [| split].
  - rewrite Hnext. vm_compute. reflexivity.
  - vm_compute. reflexivity.
  - rewrite Hfields. vm_compute. reflexivity.
Defined.

(** C10, as stated, fails.  On a Data record of 16 program bytes that
    starts 16 bytes before the end of the array the step returns the
    pointer 999998 with the flag set and leaves the array with the flag
    cleared.  On a Data record within the array the step reads its four
    payload bytes with the flag cleared and none of them with the flag
    set: the payload is hidden by the decode step itself. *)
Lemma hide_flag_changes_the_step :
  fst (DisplayRecord true late_data_buffer 999970) = Ok (Some 999998)
  /\ fst (DisplayRecord false late_data_buffer 999970) = Undefined
  /\ reads (snd (DisplayRecord true
                   (mkBuffer (sample_data ++ sample_end) zeros) 0))
     = [0; 1; 2; 3; 4; 5; 6; 7; 8; 9; 10; 11]
  /\ reads (snd (DisplayRecord false
                   (mkBuffer (sample_data ++ sample_end) zeros) 0))
     = [0; 1; 2; 3; 4; 5; 6; 7; 8; 9; 10; 11; 12; 13; 14; 15].
Proof.
  split; [vm_compute; reflexivity |].
  split; [vm_compute; reflexivity |].
  split; vm_compute; reflexivity.
Qed.

(** ** Well-formed files *)

Lemma shown_all_ends_with_end (hide : bool) (rs : list SimRecord) (c : Z)
    (bs : list byte) (p : Z) :
  encodes_all rs bs ->
  shown_all hide p (rs ++ [EndRecord c])
  = (shown_all hide p rs ++ reads_from (p + Z.of_nat (length bs)) 5)
      ++ [Pr (LEndRecord c)].
Proof.
  intros H. rewrite (shown_all_app hide rs [EndRecord c] bs p H).
  cbn [shown_all shown]. now rewrite app_nil_r, !app_assoc.
Qed.

(** C6, amended: for every file of at most the maximum accepted size that
    is a 14-byte header followed by a well-formed record stream (every
    such file has at least 19 bytes), decoding ends, it ends on the End
    record, [DisplayRecords] returns 0 having shown the records of the
    stream in order, and every access to the buffer is below the number
    of bytes stored in it. *)
Theorem well_formed_file_is_decoded (hide : bool) (st : Z -> byte)
    (file header bs : list byte) (rs : list SimRecord) (c : Z) :
  file = header ++ bs ->
  Z.of_nat (length header) = HEADER_SIZE_BYTES ->
  well_formed_stream rs c bs ->
  Z.of_nat (length file) <= MAX_FILE_SIZE_BYTES ->
  DisplayRecords hide st file
  = (Ok 0, shown_all hide 0 (rs ++ [EndRecord c]))
  /\ (exists w : list event,
        shown_all hide 0 (rs ++ [EndRecord c]) = w ++ [Pr (LEndRecord c)])
  /\ Forall (fun i => 0 <= i < Z.of_nat (length file) - HEADER_SIZE_BYTES)
            (reads (shown_all hide 0 (rs ++ [EndRecord c])))
  /\ 19 <= Z.of_nat (length file).
Proof.
  intros -> Hheader Hwf Hsize.
  rewrite length_app, Nat2Z.inj_add, Hheader in *.
  assert (Hread : fread (header ++ bs) (Z.to_nat HEADER_SIZE_BYTES)
                        (Z.to_nat BF_SIZE) = bs).
  { rewrite (header_length_14 header Hheader). apply fread_all.
    unfold BF_SIZE. lia. }
  destruct Hwf as [Hnoend Hall].
  destruct (encodes_all_app_inv rs [EndRecord c] bs Hall)
    as (b1 & b2 & Hbs & H1 & H2).
  split; [| split; [| split]].
  - apply (records_well_formed hide st _ bs rs c Hread). split; assumption.
  - eexists. apply (shown_all_ends_with_end hide rs c b1 0 H1).
  - eapply Forall_impl; [| apply (shown_all_bounds hide _ bs Hall 0)].
    cbn beta. intros i Hi. lia.
  - pose proof (encodes_all_length _ _ H2) as Hlen.
    inversion H2 as [| r rs' b rest Henc Hrest]; subst.
    apply encodes_length in Henc. cbn [record_size] in Henc.
    rewrite !length_app, !Nat2Z.inj_add. unfold HEADER_SIZE_BYTES. lia.
Qed.

Lemma well_formed_file_is_decoded_witness :
  well_formed_stream [DataRecord 0 0 0 ["222"; "173"; "190"; "239"]%byte] 0
                     (sample_data ++ sample_end)
  /\ Z.of_nat (length sample_file) <= MAX_FILE_SIZE_BYTES
  /\ DisplayRecords false zeros sample_file
     = (Ok 0,
        [Rd 0; Rd 1; Rd 2; Rd 3; Rd 4; Rd 5; Rd 6; Rd 7; Rd 8; Rd 9; Rd 10;
         Rd 11; Pr (LDataRecord 0 0 0 4);
         Rd 12; Pr (LProgramByte 222); Rd 13; Pr (LProgramByte 173);
         Rd 14; Pr (LProgramByte 190); Rd 15; Pr (LProgramByte 239);
         Rd 16; Rd 17; Rd 18; Rd 19; Rd 20; Pr (LEndRecord 0)]).
Proof.
  assert (Hwf : well_formed_stream
                  [DataRecord 0 0 0 ["222"; "173"; "190"; "239"]%byte] 0
                  (sample_data ++ sample_end)).
  { split; [reflexivity |].
    apply (encodes_cons _ [EndRecord 0] sample_data sample_end).
    - exact (encodes_data "000" "000" "000" "000" "000" "000" "000"
                          "000" "000" "000" "004"
                          ["222"; "173"; "190"; "239"]%byte eq_refl).
    - apply (encodes_cons (EndRecord 0) [] sample_end []); [| constructor].
      exact (encodes_end "000" "000" "000" "000"). }
  assert (Hsize : Z.of_nat (length sample_file) <= MAX_FILE_SIZE_BYTES)
    by (vm_compute; discriminate).
  split; [exact Hwf |]. split; [exact Hsize |].
  exact (proj1 (well_formed_file_is_decoded false zeros sample_file
                  sample_header (sample_data ++ sample_end) _ 0
                  eq_refl eq_refl Hwf Hsize)).
Defined.

Lemma oversized_stream_well_formed :
  well_formed_stream
    [DataRecord 0 0 0 (repeat "000"%byte (Z.to_nat 1000000))] 0
    (skipn 14 oversized_file).
Proof.
  split; [reflexivity |]. unfold oversized_file, sample_header.
  cbn [app skipn].
  apply (encodes_cons _ [EndRecord 0]
           ("001"%byte :: "000"%byte :: "000"%byte :: "000"%byte
              :: "000"%byte :: "000"%byte :: "000"%byte :: "000"%byte
              :: "000"%byte :: "015"%byte :: "066"%byte :: "064"%byte
              :: repeat "000"%byte (Z.to_nat 1000000)) sample_end).
  - apply (encodes_data "000" "000" "000" "000" "000" "000" "000"
                        "000" "015" "066" "064").
    rewrite repeat_length, Z2Nat.id by discriminate. reflexivity.
  - apply (encodes_cons (EndRecord 0) [] sample_end []); [| constructor].
    exact (encodes_end "000" "000" "000" "000").
Qed.

(** C6, as stated, fails on a well-formed file of 1,000,031 bytes:
    [main] rejects it and decodes nothing; [DisplayRecords] stores its
    first 999,986 record bytes, and behind the Data record the cursor is
    1,000,012, outside the array: the access is undefined and no End
    record is reached. *)
Lemma oversized_file_is_not_decoded :
  well_formed_stream
    [DataRecord 0 0 0 (repeat "000"%byte (Z.to_nat 1000000))] 0
    (skipn 14 oversized_file)
  /\ 18 <= Z.of_nat (length oversized_file)
  /\ main true zeros oversized_file = (Ok 0, [Pr (LFileSizeTooLarge 1000031)])
  /\ Z.of_nat (length (fread oversized_file (Z.to_nat HEADER_SIZE_BYTES)
                             (Z.to_nat BF_SIZE))) = 999986
  /\ DisplayRecords true zeros oversized_file
     = (Undefined,
        [Rd 0; Rd 1; Rd 2; Rd 3; Rd 4; Rd 5; Rd 6; Rd 7; Rd 8; Rd 9; Rd 10;
         Rd 11; Pr (LDataRecord 0 0 0 1000000); Pr LProgramBytesHidden;
         Rd 1000012]).
Proof.
  split; [exact oversized_stream_well_formed |].
  split; [vm_compute; discriminate |].
  split; [vm_compute; reflexivity |].
  split; vm_compute; reflexivity.
Qed.

(** ** The example of the specification *)

(** Section 8: the header, one Data record of payload DE AD BE EF and the
    End record of checksum 0. *)
Example sample_file_decoded :
  main false zeros sample_file
  = (Ok 0,
     [Pr (LFileSize 35); Pr (LHeader 1 0 4 256);
      Rd 0; Rd 1; Rd 2; Rd 3; Rd 4; Rd 5; Rd 6; Rd 7; Rd 8; Rd 9; Rd 10;
      Rd 11; Pr (LDataRecord 0 0 0 4);
      Rd 12; Pr (LProgramByte 222); Rd 13; Pr (LProgramByte 173);
      Rd 14; Pr (LProgramByte 190); Rd 15; Pr (LProgramByte 239);
      Rd 16; Rd 17; Rd 18; Rd 19; Rd 20; Pr (LEndRecord 0);
      Pr (LCalculatedChecksum 4294966458)]).
Proof.
  vm_compute. reflexivity.
Qed.

(** * Further properties of the program *)

(** ** The stages of [main] *)

Lemma header_shown (file : list byte) :
  HEADER_SIZE_BYTES <= Z.of_nat (length file) ->
  DisplayHeader file
  = (Ok 0, [Pr (LHeader (big_endian (slice file 0 4))
                        (big_endian (slice file 4 4))
                        (big_endian (slice file 8 4))
                        (big_endian (slice file 12 2)))]).
Proof.
  unfold HEADER_SIZE_BYTES. intros H.
  assert (Hsplit : file = firstn 14 file ++ skipn 14 file)
    by (symmetry; apply firstn_skipn).
  assert (Hlen : length (firstn 14 file) = 14%nat)
    by (rewrite length_firstn; lia).
  destruct (firstn 14 file)
    as [| b0 [| b1 [| b2 [| b3 [| b4 [| b5 [| b6 [| b7 [| b8 [| b9 [| b10
       [| b11 [| b12 [| b13 [| b14 l]]]]]]]]]]]]]]]; try discriminate.
  rewrite Hsplit. unfold DisplayHeader, fread, slice, hdr.
  change (Z.to_nat HEADER_SIZE_BYTES) with 14%nat.
  cbn [app firstn skipn length nth].
  change (Z.of_nat 14 =? HEADER_SIZE_BYTES) with true. cbn [negb].
  rewrite !big_endian_4, big_endian_2. reflexivity.
Qed.

Lemma file_size_shown (file : list byte) :
  Z.of_nat (length file) < MAX_FILE_SIZE_BYTES ->
  DisplayFileSize file = (Ok 0, [Pr (LFileSize (Z.of_nat (length file)))]).
Proof.
  intros H. unfold DisplayFileSize, ftell_end.
  rewrite to_int_small by (unfold MAX_FILE_SIZE_BYTES in H; lia).
  replace (Z.of_nat (length file) >=? MAX_FILE_SIZE_BYTES) with false
    by (symmetry; rewrite Z.geb_leb; apply Z.leb_gt; exact H).
  reflexivity.
Qed.

(** X1: a file shorter than the 14 bytes of a header.  [main] shows its
    size and "Could not read header.": no header field, no record and no
    checksum is shown, and the exit status is 0 all the same. *)
Theorem short_file_stops_at_header (hide : bool) (st : Z -> byte)
    (file : list byte) :
  Z.of_nat (length file) < HEADER_SIZE_BYTES ->
  main hide st file
  = (Ok 0, [Pr (LFileSize (Z.of_nat (length file)));
            Pr LCouldNotReadHeader]).
Proof.
  intros H. unfold main.
  rewrite file_size_shown
    by (unfold HEADER_SIZE_BYTES, MAX_FILE_SIZE_BYTES in *; lia).
  rewrite bind_ok. change (negb (0 =? 0)) with false. cbv iota.
  rewrite short_header by exact H.
  reflexivity.
Qed.

Lemma short_file_stops_at_header_witness :
  Z.of_nat (length ["001"; "002"; "003"]%byte) < HEADER_SIZE_BYTES
  /\ main false zeros ["001"; "002"; "003"]%byte
     = (Ok 0, [Pr (LFileSize 3); Pr LCouldNotReadHeader]).
Proof.
  assert (H : Z.of_nat (length ["001"; "002"; "003"]%byte)
              < HEADER_SIZE_BYTES) by reflexivity.
  split; [exact H |].
  exact (short_file_stops_at_header false zeros _ H).
Defined.

(** X2: a file of exactly 14 bytes, a header and no record.  [main] shows
    the size and the header fields; [DisplayRecords] stores no byte and
    returns 1, so that nothing is read and no checksum is calculated. *)
Theorem header_only_file_has_no_checksum (hide : bool) (st : Z -> byte)
    (file : list byte) :
  Z.of_nat (length file) = HEADER_SIZE_BYTES ->
  DisplayRecords hide st file = (Ok 1, [])
  /\ main hide st file
     = (Ok 0, [Pr (LFileSize HEADER_SIZE_BYTES);
               Pr (LHeader (big_endian (slice file 0 4))
                           (big_endian (slice file 4 4))
                           (big_endian (slice file 8 4))
                           (big_endian (slice file 12 2)))]).
Proof.
  intros H.
  assert (Hrec : DisplayRecords hide st file = (Ok 1, []))
    by (apply no_record_bytes; lia).
  split; [exact Hrec |]. unfold main.
  rewrite file_size_shown
    by (unfold HEADER_SIZE_BYTES, MAX_FILE_SIZE_BYTES in *; lia).
  rewrite bind_ok. change (negb (0 =? 0)) with false. cbv iota.
  rewrite header_shown by lia.
  rewrite bind_ok. change (negb (0 =? 0)) with false. cbv iota.
  rewrite Hrec, H. reflexivity.
Qed.

Lemma header_only_file_has_no_checksum_witness :
  Z.of_nat (length sample_header) = HEADER_SIZE_BYTES
  /\ main false zeros sample_header
     = (Ok 0, [Pr (LFileSize 14); Pr (LHeader 1 0 4 256)]).
Proof.
  assert (H : Z.of_nat (length sample_header) = HEADER_SIZE_BYTES)
    by reflexivity.
  split; [exact H |].
  exact (proj2 (header_only_file_has_no_checksum false zeros _ H)).
Defined.

Lemma records_long_status (hide : bool) (st : Z -> byte) (file : list byte) :
  HEADER_SIZE_BYTES < Z.of_nat (length file) ->
  fst (DisplayRecords hide st file) = Ok 0
  \/ fst (DisplayRecords hide st file) = Undefined.
Proof.
  intros H. unfold DisplayRecords, fread.
  rewrite length_firstn, length_skipn.
  replace (Z.of_nat (Nat.min (Z.to_nat BF_SIZE)
                             (length file - Z.to_nat HEADER_SIZE_BYTES))
           =? 0) with false
    by (symmetry; apply Z.eqb_neq;
        unfold BF_SIZE, MAX_FILE_SIZE_BYTES, HEADER_SIZE_BYTES in *; lia).
  cbn [negb].
  match goal with
  | |- context [display_loop loop_fuel hide ?m 0] =>
      destruct (display_loop_total hide m) as [Ht | Ht];
      destruct (display_loop loop_fuel hide m 0) as [[[] | |] w];
      cbn [fst] in Ht; try discriminate
  end; [left | right]; reflexivity.
Qed.

(** X3: [DisplayRecords] returns 1 exactly when the file has no byte
    behind its header; with at least one byte it walks the records and
    returns 0, whatever it found, unless an access leaves the array. *)
Theorem records_status (hide : bool) (st : Z -> byte) (file : list byte) :
  (fst (DisplayRecords hide st file) = Ok 1
   <-> Z.of_nat (length file) <= HEADER_SIZE_BYTES)
  /\ (HEADER_SIZE_BYTES < Z.of_nat (length file) ->
      fst (DisplayRecords hide st file) = Ok 0
      \/ fst (DisplayRecords hide st file) = Undefined).
Proof.
  split; [split |]; [| | apply records_long_status].
  - intros H1.
    destruct (Z_le_gt_dec (Z.of_nat (length file)) HEADER_SIZE_BYTES)
      as [Hle | Hgt]; [exact Hle |].
    destruct (records_long_status hide st file) as [H0 | H0]; [lia | |];
      rewrite H0 in H1; discriminate.
  - intros Hle. rewrite no_record_bytes by exact Hle. reflexivity.
Qed.

(** X4: the cursor never moves backward.  A step that returns a pointer
    has read its tag inside the array and returns a pointer at least 6
    bytes further on, the width of the shortest record that goes on. *)
Theorem step_moves_forward (hide : bool) (m : buffer) (p q : Z) :
  fst (DisplayRecord hide m p) = Ok (Some q) ->
  0 <= p < BF_SIZE /\ p + 6 <= q.
Proof.
  unfold DisplayRecord. intros H.
  apply bind_Ok_inv in H. destruct H as (tag & w & Htag & H).
  assert (Hp : 0 <= p < BF_SIZE).
  { destruct (load_cases m (p + 0)) as [[Hr _] | Hu]; [lia | congruence]. }
  split; [exact Hp |].
  destruct (tag =? DATA_RECORD_TAG).
  - repeat (apply bind_Ok_inv in H; destruct H as (? & ? & _ & H)).
    cbn [ret fst] in H. injection H as <-.
    match goal with
    | |- context [be32 ?a ?b ?c ?d] => pose proof (be32_nonneg a b c d)
    end.
    lia.
  - destruct (tag =? ENTRY_RECORD_TAG).
    + repeat (apply bind_Ok_inv in H; destruct H as (? & ? & _ & H)).
      cbn [ret fst] in H. injection H as <-. lia.
    + destruct (tag =? END_RECORD_TAG).
      * repeat (apply bind_Ok_inv in H; destruct H as (? & ? & _ & H)).
        discriminate.
      * discriminate.
Qed.

Lemma step_moves_forward_witness :
  fst (DisplayRecord false (mkBuffer (sample_entry ++ sample_end) zeros) 0)
  = Ok (Some 6)
  /\ 0 <= 0 < BF_SIZE /\ 0 + 6 <= 6.
Proof.
  assert (H : fst (DisplayRecord false
                     (mkBuffer (sample_entry ++ sample_end) zeros) 0)
              = Ok (Some 6)) by (vm_compute; reflexivity).
  split; [exact H |].
  exact (step_moves_forward false _ 0 6 H).
Defined.

(** ** The stages together *)

(** The checksum shown, as the negated sum of all bytes but the last
    four. *)
Lemma checksum_shown (file : list byte) :
  4 <= Z.of_nat (length file) < 2 ^ 32 ->
  DisplayCalculatedChecksum file
  = (Ok 0, [Pr (LCalculatedChecksum
                  ((- byte_sum (firstn (length file - 4) file))
                   mod 2 ^ 32))]).
Proof.
  intros H. rewrite checksum_calculated by lia.
  rewrite (proj2 (negate_uint _)), crcPos_small by exact H.
  rewrite sum32_byte_sum.
  replace (Z.to_nat (Z.of_nat (length file) - 4)) with (length file - 4)%nat
    by lia.
  do 4 f_equal.
  rewrite <- (Z.sub_0_l (_ mod _)), Zminus_mod_idemp_r. reflexivity.
Qed.

(** X5: how the stages compose.  On a file with at least one byte behind
    the header and below the size limit, [main] shows the size, the four
    header fields, whatever [DisplayRecords] shows, and then the negated
    sum of all bytes but the last four: the checksum line is left out
    only when an access of [DisplayRecords] left the array, never because
    of what the records hold. *)
Theorem main_shows_every_stage (hide : bool) (st : Z -> byte)
    (file : list byte) :
  HEADER_SIZE_BYTES < Z.of_nat (length file) < MAX_FILE_SIZE_BYTES ->
  main hide st file
  = after [Pr (LFileSize (Z.of_nat (length file)));
           Pr (LHeader (big_endian (slice file 0 4))
                       (big_endian (slice file 4 4))
                       (big_endian (slice file 8 4))
                       (big_endian (slice file 12 2)))]
      (DisplayRecords hide st file ;;;
       printf (LCalculatedChecksum
                 ((- byte_sum (firstn (length file - 4) file)) mod 2 ^ 32)) ;;;
       ret 0).
Proof.
  intros H. unfold main.
  rewrite file_size_shown by lia.
  rewrite bind_ok. change (negb (0 =? 0)) with false. cbv iota.
  rewrite header_shown by lia.
  rewrite bind_ok. change (negb (0 =? 0)) with false. cbv iota.
  rewrite after_after. cbn [app]. f_equal.
  rewrite checksum_shown
    by (unfold HEADER_SIZE_BYTES, MAX_FILE_SIZE_BYTES in H; lia).
  destruct (records_long_status hide st file) as [H0 | H0]; [lia | |];
    destruct (DisplayRecords hide st file) as [r w]; cbn [fst] in H0;
    subst r; reflexivity.
Qed.

Lemma main_shows_every_stage_witness :
  HEADER_SIZE_BYTES < Z.of_nat (length unknown_tag_file)
                    < MAX_FILE_SIZE_BYTES
  /\ main false zeros unknown_tag_file
     = (Ok 0, [Pr (LFileSize 15); Pr (LHeader 1 0 4 256); Rd 0;
               Pr (LCalculatedChecksum 4294967295)]).
Proof.
  assert (H : HEADER_SIZE_BYTES < Z.of_nat (length unknown_tag_file)
                                < MAX_FILE_SIZE_BYTES)
    by (split; reflexivity).
  split; [exact H |].
  exact (main_shows_every_stage false zeros unknown_tag_file H).
Defined.

(** X6: a well-formed file below the size limit, whatever checksum [c]
    its End record stores.  [main] returns 0 and shows the size, the
    header, the records in order and the calculated checksum, which is
    the negated sum of all bytes before the stored one.  The two
    checksums are both shown and never compared. *)
Theorem well_formed_file_output (hide : bool) (st : Z -> byte)
    (header bs : list byte) (rs : list SimRecord) (c : Z) :
  Z.of_nat (length header) = HEADER_SIZE_BYTES ->
  well_formed_stream rs c bs ->
  Z.of_nat (length (header ++ bs)) < MAX_FILE_SIZE_BYTES ->
  main hide st (header ++ bs)
  = (Ok 0,
     [Pr (LFileSize (Z.of_nat (length (header ++ bs))));
      Pr (LHeader (big_endian (slice header 0 4))
                  (big_endian (slice header 4 4))
                  (big_endian (slice header 8 4))
                  (big_endian (slice header 12 2)))]
     ++ shown_all hide 0 (rs ++ [EndRecord c])
     ++ [Pr (LCalculatedChecksum
               ((- byte_sum (firstn (length (header ++ bs) - 4)
                                    (header ++ bs))) mod 2 ^ 32))]).
Proof.
  intros Hheader Hwf Hsize.
  assert (Hread : fread (header ++ bs) (Z.to_nat HEADER_SIZE_BYTES)
                        (Z.to_nat BF_SIZE) = bs).
  { rewrite (header_length_14 header Hheader). apply fread_all.
    rewrite length_app in Hsize. unfold BF_SIZE. lia. }
  assert (Hpos : 0 < Z.of_nat (length bs)).
  { destruct Hwf as [_ Hall].
    destruct (encodes_all_app_inv rs [EndRecord c] bs Hall)
      as (b1 & b2 & -> & _ & H2).
    inversion H2 as [| r rs' b rest Henc Hrest]; subst.
    apply encodes_length in Henc. cbn [record_size] in Henc.
    rewrite !length_app, !Nat2Z.inj_add. lia. }
  assert (Hfile : HEADER_SIZE_BYTES < Z.of_nat (length (header ++ bs))
                  /\ 4 <= Z.of_nat (length (header ++ bs)) < 2 ^ 32)
    by (rewrite length_app, Nat2Z.inj_add, Hheader in *;
        unfold HEADER_SIZE_BYTES, MAX_FILE_SIZE_BYTES in *; lia).
  unfold main.
  rewrite file_size_shown by exact Hsize.
  rewrite bind_ok. change (negb (0 =? 0)) with false. cbv iota.
  rewrite header_shown by lia.
  rewrite bind_ok. change (negb (0 =? 0)) with false. cbv iota.
  rewrite checksum_shown by apply Hfile.
  rewrite (records_well_formed hide st _ bs rs c Hread Hwf).
  assert (H14 : length header = 14%nat)
    by (unfold HEADER_SIZE_BYTES in Hheader; lia).
  assert (Hs : forall off len : nat, (off + len <= 14)%nat ->
               slice (header ++ bs) off len = slice header off len).
  { intros off len Hle. unfold slice.
    rewrite skipn_app, firstn_app, length_skipn.
    replace (len - (length header - off))%nat with 0%nat by lia.
    replace (off - length header)%nat with 0%nat by lia.
    cbn [firstn skipn]. now rewrite app_nil_r. }
  rewrite !Hs by lia.
  rewrite bind_ok. change (negb (0 =? 0)) with false.
  cbn [printf ret bind after app]. reflexivity.
Qed.

Lemma well_formed_file_output_witness :
  well_formed_stream [EntryRecord 8 1] 0 (sample_entry ++ sample_end)
  /\ main true zeros (sample_header ++ sample_entry ++ sample_end)
     = (Ok 0,
        [Pr (LFileSize 25); Pr (LHeader 1 0 4 256);
         Rd 0; Rd 1; Rd 2; Rd 3; Rd 4; Rd 5; Pr (LEntryRecord 8 1);
         Rd 6; Rd 7; Rd 8; Rd 9; Rd 10; Pr (LEndRecord 0);
         Pr (LCalculatedChecksum 4294967276)]).
Proof.
  assert (Hwf : well_formed_stream [EntryRecord 8 1] 0
                  (sample_entry ++ sample_end)).
  { split; [reflexivity |].
    apply (encodes_cons _ [EndRecord 0] sample_entry sample_end).
    - exact (encodes_entry "000" "000" "000" "008" "001").
    - apply (encodes_cons (EndRecord 0) [] sample_end []); [| constructor].
      exact (encodes_end "000" "000" "000" "000"). }
  split; [exact Hwf |].
  exact (well_formed_file_output true zeros sample_header
           (sample_entry ++ sample_end) [EntryRecord 8 1] 0
           eq_refl Hwf eq_refl).
Defined.

(** X7: the calculated checksum does not depend on the last four bytes of
    the file, the place of the stored checksum. *)
Theorem checksum_ignores_last_four_bytes (body t1 t2 : list byte) :
  length t1 = 4%nat -> length t2 = 4%nat ->
  Z.of_nat (length body) + 4 < 2 ^ 32 ->
  DisplayCalculatedChecksum (body ++ t1)
  = DisplayCalculatedChecksum (body ++ t2)
  /\ DisplayCalculatedChecksum (body ++ t1)
     = (Ok 0, [Pr (LCalculatedChecksum ((- byte_sum body) mod 2 ^ 32))]).
Proof.
  intros H1 H2 Hlen.
  assert (H : forall t : list byte, length t = 4%nat ->
              DisplayCalculatedChecksum (body ++ t)
              = (Ok 0,
                 [Pr (LCalculatedChecksum ((- byte_sum body) mod 2 ^ 32))])).
  { intros t Ht. rewrite checksum_shown by (rewrite length_app; lia).
    rewrite length_app, Ht, Nat.add_sub, firstn_app, Nat.sub_diag.
    rewrite firstn_all, firstn_O, app_nil_r. reflexivity. }
  split; [now rewrite !H | now apply H].
Qed.

Lemma checksum_ignores_last_four_bytes_witness :
  DisplayCalculatedChecksum
    (["001"; "002"] ++ ["000"; "000"; "000"; "000"])%byte
  = DisplayCalculatedChecksum
      (["001"; "002"] ++ ["255"; "255"; "255"; "253"])%byte
  /\ DisplayCalculatedChecksum
       (["001"; "002"] ++ ["000"; "000"; "000"; "000"])%byte
     = (Ok 0, [Pr (LCalculatedChecksum 4294967293)]).
Proof.
  exact (checksum_ignores_last_four_bytes
           ["001"; "002"]%byte ["000"; "000"; "000"; "000"]%byte
           ["255"; "255"; "255"; "253"]%byte eq_refl eq_refl eq_refl).
Defined.

(** ** The command line *)

Lemma main_status (hide : bool) (st : Z -> byte) (file : list byte) :
  fst (main hide st file) = Ok 0 \/ fst (main hide st file) = Undefined.
Proof.
  unfold main, DisplayFileSize, DisplayHeader, DisplayCalculatedChecksum.
  destruct (_ >=? _); cbn [printf ret bind app negb Z.eqb fst];
    [left; reflexivity |].
  destruct (negb (_ =? HEADER_SIZE_BYTES));
    cbn [printf ret bind app negb Z.eqb fst]; [left; reflexivity |].
  destruct (DisplayRecords_total hide st file) as [H | [H | H]];
    destruct (DisplayRecords hide st file) as [r w]; cbn [fst] in H; subst r;
    cbn [printf ret bind app negb Z.eqb fst]; auto.
  destruct (checksum_loop _ _ _ _);
    cbn [printf ret bind app negb Z.eqb fst]; auto.
Qed.

Lemma option_h_prefix (arg : String.string) :
  option_h arg = if String.prefix "-h" arg then Some true else None.
Proof.
  unfold option_h, char_at.
  destruct arg as [| a [| b rest]]; cbn [String.get String.prefix].
  - reflexivity.
  - destruct (Ascii.eqb_spec a "-"%char) as [-> | Hne].
    + reflexivity.
    + destruct (Ascii.ascii_dec "-" a); [congruence | reflexivity].
  - destruct (Ascii.eqb_spec a "-"%char) as [-> | Hne].
    + destruct (Ascii.ascii_dec "-" "-"); [| congruence].
      destruct (Ascii.eqb_spec b "h"%char) as [-> | Hne].
      * destruct (Ascii.ascii_dec "h" "h"); [| congruence].
        destruct rest; reflexivity.
      * destruct (Ascii.ascii_dec "h" b); [congruence | reflexivity].
    + destruct (Ascii.ascii_dec "-" a); [congruence | reflexivity].
Qed.

(** X8: the exit status.  The program exits with 1 exactly when the
    number of arguments is wrong, when the option does not begin with
    [-h], or when the file cannot be opened.  Once the file is open the
    status is 0 whatever a stage reported: a file too large, a header
    that could not be read and a checksum that could not be calculated
    all end in 0. *)
Theorem exit_status (fopen : String.string -> option (list byte))
    (st : Z -> byte) (argv : list String.string) :
  (fst (main_args fopen st argv) = Ok 1
   <-> (length argv <> 2%nat /\ length argv <> 3%nat)
       \/ (length argv = 3%nat
           /\ String.prefix "-h" (nth 2 argv ""%string) = false)
       \/ fopen (nth 1 argv ""%string) = None)
  /\ (fst (main_args fopen st argv) = Ok 1
      \/ fst (main_args fopen st argv) = Ok 0
      \/ fst (main_args fopen st argv) = Undefined).
Proof.
  unfold main_args, paramError.
  destruct (Z.eqb_spec (Z.of_nat (length argv)) 2) as [E2 | E2];
    destruct (Z.eqb_spec (Z.of_nat (length argv)) 3) as [E3 | E3];
    cbn [negb andb]; try lia.
  - destruct (fopen (nth 1 argv ""%string)) as [file |] eqn:Hopen.
    + destruct (main_status false st file) as [H | H];
        destruct (main false st file) as [r w]; cbn [fst] in *; subst r;
        (split; [split; [discriminate |] | auto]);
        intros [[Hc _] | [[Hc _] | Hc]]; try discriminate; lia.
    + cbn [fst]. split; [split; auto | auto].
  - rewrite option_h_prefix.
    destruct (String.prefix "-h" (nth 2 argv ""%string)) eqn:Hp.
    + destruct (fopen (nth 1 argv ""%string)) as [file |] eqn:Hopen.
      * destruct (main_status true st file) as [H | H];
          destruct (main true st file) as [r w]; cbn [fst] in *; subst r;
          (split; [split; [discriminate |] | auto]);
          intros [[_ Hc] | [[_ Hc] | Hc]]; try discriminate; lia.
      * cbn [fst]. split; [split; auto | auto].
    + cbn [fst]. split; [split; [intros _ | reflexivity] | auto].
      right. left. split; [lia | reflexivity].
  - cbn [fst]. split; [split; [intros _ | reflexivity] | auto].
    left. lia.
Qed.

(** X9: the option.  With three arguments the program looks at the first
    two characters of the last one only: every option that begins with
    [-h] hides the program bytes, and any other one gives the usage
    message before the file is opened, even when it cannot be opened. *)
Theorem option_is_a_prefix_test (fopen : String.string -> option (list byte))
    (st : Z -> byte) (argv : list String.string) :
  length argv = 3%nat ->
  main_args fopen st argv
  = if String.prefix "-h" (nth 2 argv ""%string) then
      match fopen (nth 1 argv ""%string) with
      | None => (Ok 1, [Msg MCouldNotOpenFile])
      | Some file => (fst (main true st file), map Ev (snd (main true st file)))
      end
    else (Ok 1, [Msg MUsage]).
Proof.
  intros H. unfold main_args, paramError. rewrite H.
  cbn [Z.of_nat Pos.of_succ_nat Pos.succ Z.eqb Pos.eqb negb andb].
  rewrite option_h_prefix.
  destruct (String.prefix "-h" (nth 2 argv ""%string)); [| reflexivity].
  destruct (fopen (nth 1 argv ""%string)) as [file |]; [| reflexivity].
  destruct (main true st file). reflexivity.
Qed.

Lemma option_is_a_prefix_test_witness :
  main_args (fun _ => None) zeros
    ["simread"; "prog.sim"; "-help"]%string
  = (Ok 1, [Msg MCouldNotOpenFile])
  /\ main_args (fun _ => Some sample_file) zeros
       ["simread"; "prog.sim"; "--h"]%string
     = (Ok 1, [Msg MUsage]).
Proof.
  split.
  - exact (option_is_a_prefix_test (fun _ => None) zeros
             ["simread"; "prog.sim"; "-help"]%string eq_refl).
  - exact (option_is_a_prefix_test (fun _ => Some sample_file) zeros
             ["simread"; "prog.sim"; "--h"]%string eq_refl).
Defined.

(** ** One forward pass *)

Lemma bind_assoc (A B D : Type) (x : M A) (f : A -> M B) (g : B -> M D) :
  bind (bind x f) g = bind x (fun a => bind (f a) g).
Proof.
  destruct x as [[a | |] w]; cbn [bind]; try reflexivity.
  destruct (f a) as [[b | |] w1]; cbn [bind]; try reflexivity.
  destruct (g b) as [r w2]. now rewrite app_assoc.
Qed.

Lemma consecutive_load (m : buffer) (i : Z) (k : Z -> M (option Z)) :
  (forall v : Z, consecutive (i + 1) (k v)) ->
  consecutive i (bind (load m i) k).
Proof.
  intros Hk. destruct (load_cases m i) as [[_ ->] | ->].
  - destruct (Hk (C.uchar (bf_byte m i))) as (n & Hreads & Hq).
    rewrite bind_ok. exists (S n). rewrite snd_after, fst_after.
    cbn [app reads reads_from]. split; [now rewrite Hreads |].
    intros q H. specialize (Hq q H). lia.
  - exists 1%nat. cbn [bind snd fst reads reads_from].
    split; [reflexivity | discriminate].
Qed.

Lemma consecutive_printf (l : line) (p : Z) (k : unit -> M (option Z)) :
  consecutive p (k tt) -> consecutive p (bind (printf l) k).
Proof.
  intros (n & Hreads & Hq). unfold printf. rewrite bind_ok.
  exists n. rewrite snd_after, fst_after. cbn [app reads].
  split; assumption.
Qed.

Lemma consecutive_ret (p : Z) (next : option Z) :
  (forall q : Z, next = Some q -> p <= q) -> consecutive p (ret next).
Proof.
  intros H. exists 0%nat. cbn [ret snd fst reads reads_from].
  split; [reflexivity |]. intros q Hq. injection Hq as ->.
  specialize (H q eq_refl). lia.
Qed.

(** The loop over the payload reads the bytes behind the twelve of the
    fields, one after the other. *)
Lemma consecutive_program_bytes (m : buffer) (p : Z) (x : M (option Z))
    (k : nat) :
  forall i : Z,
  0 <= i -> i + Z.of_nat k <= 2 ^ 32 ->
  consecutive (p + i + Z.of_nat k) x ->
  consecutive (p + i) (program_bytes m p k i ;;; x).
Proof.
  induction k as [| k IH]; intros i Hi Hk Hx.
  - cbn [program_bytes]. unfold ret. rewrite bind_ok.
    replace (p + i + Z.of_nat 0) with (p + i) in Hx by lia.
    destruct x. exact Hx.
  - cbn [program_bytes]. rewrite bind_assoc.
    apply consecutive_load. intros v. rewrite bind_assoc.
    apply consecutive_printf.
    destruct k as [| k'].
    + cbn [program_bytes]. unfold ret. rewrite bind_ok.
      replace (p + i + Z.of_nat 1) with (p + i + 1) in Hx by lia.
      destruct x. exact Hx.
    + rewrite to_uint_small by lia.
      replace (p + i + 1) with (p + (i + 1)) by lia.
      apply IH; [lia | lia |].
      replace (p + (i + 1) + Z.of_nat (S k'))
        with (p + i + Z.of_nat (S (S k'))) by lia.
      exact Hx.
Qed.

Ltac consecutive_loads :=
  repeat match goal with
         | |- consecutive ?a (bind (load _ ?b) _) =>
             replace a with b by lia; apply consecutive_load; intros ?
         end.

(** One step reads consecutive bytes from the cursor on and returns a
    pointer behind them. *)
Lemma step_consecutive (hide : bool) (m : buffer) (p : Z) :
  consecutive p (DisplayRecord hide m p).
Proof.
  unfold DisplayRecord. rewrite Z.add_0_r.
  apply consecutive_load. intros tag.
  destruct (tag =? DATA_RECORD_TAG).
  - consecutive_loads. apply consecutive_printf.
    match goal with
    | |- context [12 + be32 ?a ?b ?c ?d] =>
        pose proof (to_uint_range
                      (Z.lor (Z.lor (Z.lor (C.shl a 24) (C.shl b 16))
                                    (C.shl c 8)) (C.shl d 0))) as Hn;
        fold (be32 a b c d) in Hn;
        set (n := be32 a b c d) in *
    end.
    destruct hide.
    + apply consecutive_printf. apply consecutive_ret.
      intros q Hq. injection Hq as <-. lia.
    + pose proof (to_uint_range (12 + n)) as Hb.
      replace (p + 11 + 1) with (p + 12) by lia.
      apply (consecutive_program_bytes m p _ _ 12); [lia | lia |].
      apply consecutive_ret. intros q Hq. injection Hq as <-.
      assert (C.to_uint (12 + n) - 12 <= n); [| lia].
      unfold C.to_uint in *.
      destruct (Z_lt_le_dec (12 + n) (2 ^ 32)) as [Hlt | Hge].
      * rewrite Z.mod_small by lia. lia.
      * replace (12 + n) with (12 + n - 2 ^ 32 + 1 * 2 ^ 32) by lia.
        rewrite Z_mod_plus_full, Z.mod_small by lia. lia.
  - destruct (tag =? ENTRY_RECORD_TAG).
    + consecutive_loads. apply consecutive_printf. apply consecutive_ret.
      intros q Hq. injection Hq as <-. lia.
    + destruct (tag =? END_RECORD_TAG).
      * consecutive_loads. apply consecutive_printf.
        apply consecutive_ret. discriminate.
      * apply consecutive_ret. discriminate.
Qed.

Lemma reads_from_sorted (n : nat) :
  forall p : Z, StronglySorted Z.lt (reads (reads_from p n)).
Proof.
  induction n as [| n IH]; intros p; cbn [reads_from reads]; constructor.
  - apply IH.
  - eapply Forall_impl; [| apply (reads_from_bounds n (p + 1))].
    cbn beta. intros i Hi. lia.
Qed.

Lemma sorted_app (l1 l2 : list Z) (mid : Z) :
  StronglySorted Z.lt l1 -> StronglySorted Z.lt l2 ->
  Forall (fun i => i < mid) l1 -> Forall (fun i => mid <= i) l2 ->
  StronglySorted Z.lt (l1 ++ l2).
Proof.
  intros H1 H2 Hlo Hhi. induction H1 as [| a l1 Hs IH Ha]; [exact H2 |].
  cbn [app]. inversion Hlo as [| ? ? Ha_mid Hlo']; subst.
  constructor; [apply IH; exact Hlo' |].
  apply Forall_app. split; [exact Ha |].
  eapply Forall_impl; [| exact Hhi]. cbn beta. intros i Hi. lia.
Qed.

(** The accesses of the loop from the cursor [p] on are in strictly
    increasing order and none is before [p]. *)
Lemma loop_sorted (hide : bool) (m : buffer) (fuel : nat) :
  forall p : Z,
  StronglySorted Z.lt (reads (snd (display_loop fuel hide m p)))
  /\ Forall (fun i => p <= i) (reads (snd (display_loop fuel hide m p))).
Proof.
  induction fuel as [| fuel IH]; intros p; cbn [display_loop].
  - cbn [snd reads]. split; constructor.
  - destruct (step_consecutive hide m p) as (n & Hreads & Hq).
    assert (Hs : StronglySorted Z.lt (reads (snd (DisplayRecord hide m p))))
      by (rewrite Hreads; apply reads_from_sorted).
    assert (Hb : Forall (fun i => p <= i < p + Z.of_nat n)
                        (reads (snd (DisplayRecord hide m p))))
      by (rewrite Hreads; apply reads_from_bounds).
    destruct (DisplayRecord hide m p) as [[[q |] | |] w];
      cbn [bind ret snd fst] in *.
    + specialize (Hq q eq_refl). destruct (IH q) as [IHs IHb].
      destruct (display_loop fuel hide m q) as [r w']. cbn [snd] in *.
      rewrite reads_app. split.
      * apply (sorted_app _ _ q); [exact Hs | exact IHs | | exact IHb].
        eapply Forall_impl; [| exact Hb]. cbn beta. intros i Hi. lia.
      * apply Forall_app. split.
        -- eapply Forall_impl; [| exact Hb]. cbn beta. intros i Hi. lia.
        -- eapply Forall_impl; [| exact IHb]. cbn beta. intros i Hi. lia.
    + rewrite app_nil_r. split; [exact Hs |].
      eapply Forall_impl; [| exact Hb]. cbn beta. intros i Hi. lia.
    + split; [exact Hs |].
      eapply Forall_impl; [| exact Hb]. cbn beta. intros i Hi. lia.
    + split; [exact Hs |].
      eapply Forall_impl; [| exact Hb]. cbn beta. intros i Hi. lia.
Qed.

(** X10: one forward pass.  Whatever the file holds and whatever the array
    held before, [DisplayRecords] accesses the array at strictly
    increasing offsets from 0 on: no byte is read twice, the cursor never
    comes back, and no access is before the array. *)
Theorem records_are_read_in_one_pass (hide : bool) (st : Z -> byte)
    (file : list byte) :
  StronglySorted Z.lt (reads (snd (DisplayRecords hide st file)))
  /\ Forall (fun i => 0 <= i) (reads (snd (DisplayRecords hide st file))).
Proof.
  unfold DisplayRecords. destruct (negb _).
  - match goal with
    | |- context [display_loop loop_fuel hide ?m 0] =>
        destruct (loop_sorted hide m loop_fuel 0) as [Hs Hb];
        destruct (display_loop loop_fuel hide m 0) as [[[] | |] w]
    end; cbn [bind ret snd] in *; rewrite ?app_nil_r; split; assumption.
  - cbn [ret snd reads]. split; constructor.
Qed.

Lemma fread_behind_header (header bs : list byte) (count : nat) :
  Z.of_nat (length header) = HEADER_SIZE_BYTES ->
  fread (header ++ bs) (Z.to_nat HEADER_SIZE_BYTES) count = firstn count bs.
Proof.
  intros H. unfold fread. rewrite (header_length_14 header H).
  now rewrite skipn_app, skipn_all, Nat.sub_diag.
Qed.

(** X11: the header plays no part in the decoding of the records.  Two
    files with the same bytes behind their 14-byte headers are decoded
    alike: the magic number is not checked and the number of program
    bytes of the header bounds nothing. *)
Theorem records_do_not_depend_on_header (hide : bool) (st : Z -> byte)
    (header1 header2 bs : list byte) :
  Z.of_nat (length header1) = HEADER_SIZE_BYTES ->
  Z.of_nat (length header2) = HEADER_SIZE_BYTES ->
  DisplayRecords hide st (header1 ++ bs)
  = DisplayRecords hide st (header2 ++ bs).
Proof.
  intros H1 H2. unfold DisplayRecords.
  now rewrite !fread_behind_header by assumption.
Qed.

Lemma records_do_not_depend_on_header_witness :
  DisplayRecords false zeros (sample_header ++ sample_data ++ sample_end)
  = DisplayRecords false zeros
      (repeat "255"%byte 14 ++ sample_data ++ sample_end).
Proof.
  exact (records_do_not_depend_on_header false zeros sample_header
           (repeat "255"%byte 14) (sample_data ++ sample_end)
           eq_refl eq_refl).
Defined.

(** ** Bytes behind the End record *)

(** The loop ends on the End record, whatever the array holds behind
    it. *)
Lemma loop_stops_at_end (m : buffer) (hide : bool) (rs : list SimRecord)
    (c : Z) (bs trailing : list byte) (fuel : nat) :
  Z.of_nat (length (data m)) <= BF_SIZE ->
  well_formed_stream rs c bs ->
  data m = bs ++ trailing ->
  display_loop (length rs + S fuel) hide m 0
  = (Ok tt, shown_all hide 0 (rs ++ [EndRecord c])).
Proof.
  intros Hsize [Hnoend Hall] Hdata.
  destruct (encodes_all_app_inv rs [EndRecord c] bs Hall)
    as (b1 & b2 & -> & H1 & H2).
  inversion H2 as [| r' rs' b rest Henc Hrest]; subst.
  inversion Hrest; subst. rewrite app_nil_r in *.
  rewrite <- app_assoc in Hdata.
  pose proof (loop_records m Hsize hide rs b1 H1 Hnoend [] (b ++ trailing)
                (S fuel)) as Hloop.
  cbn [length app Z.of_nat] in Hloop.
  rewrite Hloop by exact Hdata.
  cbn [display_loop].
  rewrite (step_record m Hsize hide b1 b trailing (EndRecord c) Henc)
    by exact Hdata.
  rewrite bind_ok. cbn [next_record]. unfold ret.
  rewrite !after_pair.
  rewrite (shown_all_app hide rs [EndRecord c] b1 0 H1).
  cbn [shown_all]. rewrite !app_nil_r. reflexivity.
Qed.

(** X12: what follows the End record is ignored.  When a well-formed
    stream that fits the array is followed by any bytes, however many,
    [DisplayRecords] shows the records of the stream, stops on the End
    record and returns 0: no trailing byte is read and none is
    reported. *)
Theorem bytes_behind_end_are_ignored (hide : bool) (st : Z -> byte)
    (header bs trailing : list byte) (rs : list SimRecord) (c : Z) :
  Z.of_nat (length header) = HEADER_SIZE_BYTES ->
  well_formed_stream rs c bs ->
  Z.of_nat (length (header ++ bs)) <= MAX_FILE_SIZE_BYTES ->
  DisplayRecords hide st (header ++ bs ++ trailing)
  = (Ok 0, shown_all hide 0 (rs ++ [EndRecord c])).
Proof.
  intros Hheader Hwf Hsize.
  pose proof (encodes_all_length _ _ (proj2 Hwf)) as Hlen.
  rewrite length_app in Hlen, Hsize. cbn [length] in Hlen.
  assert (Hfit : (length bs <= Z.to_nat BF_SIZE)%nat)
    by (unfold BF_SIZE; lia).
  unfold DisplayRecords.
  rewrite fread_behind_header by exact Hheader.
  rewrite firstn_app, (firstn_all2 (n := Z.to_nat BF_SIZE) bs) by exact Hfit.
  set (post := firstn (Z.to_nat BF_SIZE - length bs) trailing).
  assert (Hbound : Z.of_nat (length (bs ++ post)) <= BF_SIZE).
  { subst post. rewrite length_app, length_firstn. lia. }
  replace (Z.of_nat (length (bs ++ post)) =? 0) with false
    by (symmetry; apply Z.eqb_neq; rewrite length_app; lia).
  cbn [negb].
  rewrite (loop_fuel_split (length rs)) by lia.
  rewrite (loop_stops_at_end (mkBuffer (bs ++ post) st) hide rs c bs post _
             Hbound Hwf eq_refl).
  rewrite bind_ok. unfold ret. rewrite after_pair, app_nil_r. reflexivity.
Qed.

Lemma bytes_behind_end_are_ignored_witness :
  well_formed_stream [EntryRecord 8 1] 0 (sample_entry ++ sample_end)
  /\ DisplayRecords true zeros
       (sample_header ++ (sample_entry ++ sample_end)
          ++ ["001"; "255"; "003"]%byte)
     = (Ok 0,
        [Rd 0; Rd 1; Rd 2; Rd 3; Rd 4; Rd 5; Pr (LEntryRecord 8 1);
         Rd 6; Rd 7; Rd 8; Rd 9; Rd 10; Pr (LEndRecord 0)]).
Proof.
  assert (Hwf : well_formed_stream [EntryRecord 8 1] 0
                  (sample_entry ++ sample_end)).
  { split; [reflexivity |].
    apply (encodes_cons _ [EndRecord 0] sample_entry sample_end).
    - exact (encodes_entry "000" "000" "000" "008" "001").
    - apply (encodes_cons (EndRecord 0) [] sample_end []); [| constructor].
      exact (encodes_end "000" "000" "000" "000"). }
  assert (Hsize : Z.of_nat (length (sample_header
                                      ++ sample_entry ++ sample_end))
                  <= MAX_FILE_SIZE_BYTES) by (vm_compute; discriminate).
  split; [exact Hwf |].
  exact (bytes_behind_end_are_ignored true zeros sample_header
           (sample_entry ++ sample_end) ["001"; "255"; "003"]%byte
           [EntryRecord 8 1] 0 eq_refl Hwf Hsize).
Defined.
